(** * Connect 4 search engine: a shallow embedding of [main.cpp]

    The board [char board[ROWS][COLS]] is a row-major list of characters,
    the transposition table [unordered_map<string, pair<int,int>> memo] is a
    [gmap string (Z * Z)], and every function that writes to the board or to
    the table passes them explicitly and hands them back to its caller.

    C++ [int] values are integers of [Z].  Signed overflow has no defined
    behaviour in C++, and the values the program computes with (depths up to
    nine, scores below seventy million, see [evaluateBoard_range]) stay far
    inside the [int] range, so no wrap-around is written into the
    arithmetic.  Row and column indices
    are natural numbers; the [-1] that stands for "no row" is [None], and
    the [-1] that stands for "no column" in a returned pair is kept.

    [std::sort] is not code of the program: the search is stated over any
    sorting routine that meets its contract (class [StdSort]), and
    [stable_sort] is the insertion sort that the libraries run on the seven
    or fewer candidate columns.

    The column a person types reaches [dropPiece] unchecked.
    [getNextOpenRow_int] and [dropPiece_int] take it as the [int] it is and
    address the array the way the compiled program does, by the offset
    [r * COLS + col]. *)

From Stdlib Require Import ZArith List Ascii String Bool Lia Sorting.Sorted Permutation.
From stdpp Require Import base list gmap strings pretty fin_maps.

Local Open Scope Z_scope.

(** ** Configuration *)

Definition ROWS : nat := 6.
Definition COLS : nat := 7.
Definition MAX_MEMORY_SIZE : Z := 2000000.
Definition INT_MIN : Z := -2147483648.
Definition INT_MAX : Z := 2147483647.

Definition EMPTY : ascii := " "%char.
Definition PX : ascii := "X"%char.
Definition PO : ascii := "O"%char.

Infix "==c" := Ascii.eqb (at level 70, no associativity).

(** ** The board *)

(** [char b[ROWS][COLS]], stored row after row. *)
Abbreviation board := (list ascii).

Definition idx (r c : nat) : nat := (r * COLS + c)%nat.

(** [b[r][c]].  A list too short to hold the cell reads as the NUL
    character, which is not the empty marker. *)
Definition cell (b : board) (r c : nat) : ascii :=
  default "000"%char (b !! idx r c).

(** [b[r][c] = v]. *)
Definition set_cell (b : board) (r c : nat) (v : ascii) : board :=
  <[idx r c := v]> b.

(** [for (int i = lo; i < hi; i++) body], threading the loop state. *)
Definition for_ {S : Type} (lo hi : nat) (body : nat -> S -> S) (s : S) : S :=
  fold_left (fun s i => body i s) (seq lo (hi - lo)) s.

Definition initBoard : board := replicate (ROWS * COLS) EMPTY.

Definition append_char (key : string) (ch : ascii) : string :=
  key +:+ String ch "".

Definition getBoardHash (b : board) : string :=
  for_ 0 ROWS (fun i =>
    for_ 0 COLS (fun j key => append_char key (cell b i j))) "".

(** ** Core mechanics *)

(** The loop [for (r = n - 1; r >= 0; r--)] of [getNextOpenRow]. *)
Fixpoint scan_open (b : board) (col : nat) (n : nat) : option nat :=
  match n with
  | O => None
  | S r => if cell b r col ==c EMPTY then Some r else scan_open b col r
  end.

(** [None] stands for the [-1] the code returns for a full column. *)
Definition getNextOpenRow (b : board) (col : nat) : option nat :=
  scan_open b col ROWS.

Definition any_in (lo hi : nat) (p : nat -> bool) : bool :=
  existsb p (seq lo (hi - lo)).

Definition four (b : board) (p : ascii)
  (r1 c1 r2 c2 r3 c3 r4 c4 : nat) : bool :=
  (cell b r1 c1 ==c p) && (cell b r2 c2 ==c p) &&
  (cell b r3 c3 ==c p) && (cell b r4 c4 ==c p).

Definition checkWin (b : board) (p : ascii) : bool :=
  any_in 0 ROWS (fun r => any_in 0 (COLS - 3) (fun c =>
    four b p r c r (c+1) r (c+2) r (c+3)))
  || any_in 0 (ROWS - 3) (fun r => any_in 0 COLS (fun c =>
    four b p r c (r+1) c (r+2) c (r+3) c))
  || any_in 0 (ROWS - 3) (fun r =>
       any_in 0 (COLS - 3) (fun c =>
         four b p r c (r+1) (c+1) (r+2) (c+2) (r+3) (c+3))
       || any_in 3 COLS (fun c =>
         four b p r c (r+1) (c-1) (r+2) (c-2) (r+3) (c-3))).

(** [dropPiece] works on the global board; here it takes and returns it. *)
Definition dropPiece (b : board) (col : nat) (player : ascii) : bool * board :=
  match getNextOpenRow b col with
  | Some row => (true, set_cell b row col player)
  | None => (false, b)
  end.

(** ** Evaluation engine *)

(** [evaluateWindow], with the constant of the branch commented
    "Unstoppable" taken as an argument. *)
Definition evaluateWindow_with (unstoppable : Z)
  (c1 c2 c3 c4 piece : ascii) : Z :=
  let score := 0 in
  let countPiece := Z.b2z (c1 ==c piece) + Z.b2z (c2 ==c piece)
                    + Z.b2z (c3 ==c piece) + Z.b2z (c4 ==c piece) in
  let countEmpty := Z.b2z (c1 ==c EMPTY) + Z.b2z (c2 ==c EMPTY)
                    + Z.b2z (c3 ==c EMPTY) + Z.b2z (c4 ==c EMPTY) in
  let countOpp := 4 - countPiece - countEmpty in
  if countPiece =? 4 then 1000000 else
  let score :=
    if (countPiece =? 3) && (countEmpty =? 1) then
      let left_open := c1 ==c EMPTY in
      let right_open := c4 ==c EMPTY in
      if left_open && right_open then score + unstoppable else score + 150
    else if (countPiece =? 2) && (countEmpty =? 2) then
      let connected := (c1 ==c piece) && (c2 ==c piece)
                       || (c2 ==c piece) && (c3 ==c piece)
                       || (c3 ==c piece) && (c4 ==c piece) in
      if connected then score + 50 else score + 60
    else score in
  let score :=
    if (countOpp =? 3) && (countEmpty =? 1) then
      let left_open := c1 ==c EMPTY in
      let right_open := c4 ==c EMPTY in
      if left_open && right_open then score - 10000 else score - 500
    else if (countOpp =? 2) && (countEmpty =? 2) then score - 50
    else score in
  score.

Definition evaluateWindow : ascii -> ascii -> ascii -> ascii -> ascii -> Z :=
  evaluateWindow_with 5000.

Definition evaluateBoard (b : board) (piece : ascii) : Z :=
  let score := 0 in
  let score := for_ 0 ROWS (fun r score =>
    let score := if cell b r (COLS / 2) ==c piece then score + 200 else score in
    if (cell b r (COLS / 2 - 1) ==c piece) || (cell b r (COLS / 2 + 1) ==c piece)
    then score + 100 else score) score in
  let score := for_ 0 ROWS (fun r => for_ 0 (COLS - 3) (fun c score =>
    score + evaluateWindow (cell b r c) (cell b r (c+1))
                           (cell b r (c+2)) (cell b r (c+3)) piece)) score in
  let score := for_ 0 COLS (fun c => for_ 0 (ROWS - 3) (fun r score =>
    score + evaluateWindow (cell b r c) (cell b (r+1) c)
                           (cell b (r+2) c) (cell b (r+3) c) piece)) score in
  let score := for_ 0 (ROWS - 3) (fun r score =>
    let score := for_ 0 (COLS - 3) (fun c score =>
      score + evaluateWindow (cell b r c) (cell b (r+1) (c+1))
                             (cell b (r+2) (c+2)) (cell b (r+3) (c+3)) piece)
      score in
    for_ 3 COLS (fun c score =>
      score + evaluateWindow (cell b r c) (cell b (r+1) (c-1))
                             (cell b (r+2) (c-2)) (cell b (r+3) (c-3)) piece)
      score) score in
  score.

(** ** AI utilities *)

Definition countThreats (b : board) (piece : ascii) : Z * board :=
  for_ 0 COLS (fun col '(threats, b) =>
    match getNextOpenRow b col with
    | Some row =>
        let b := set_cell b row col piece in
        let threats := if checkWin b piece then threats + 1 else threats in
        let b := set_cell b row col EMPTY in
        (threats, b)
    | None => (threats, b)
    end) (0, b).

Definition evaluateMoveSimple (b : board) (piece : ascii) : Z :=
  evaluateBoard b piece.

(** [std::sort] with the comparator [a.second > b.second].  The C++ standard
    promises a permutation of the input in which no later element compares
    before an earlier one, and nothing about elements that compare equal. *)
Definition score_ge (a b : nat * Z) : Prop := b.2 <= a.2.

Class StdSort := {
  std_sort : list (nat * Z) -> list (nat * Z);
  std_sort_perm : forall l, Permutation (std_sort l) l;
  std_sort_sorted : forall l, StronglySorted score_ge (std_sort l)
}.

Section Search.

Context `{StdSort}.

Definition getOptimizedMoves (b : board) (maximizingPlayer : bool)
  : list nat * board :=
  let piece := if maximizingPlayer then PO else PX in
  let '(moves_with_score, b) :=
    for_ 0 COLS (fun col '(moves_with_score, b) =>
      match getNextOpenRow b col with
      | None => (moves_with_score, b)
      | Some row =>
          let b := set_cell b row col piece in
          let score := if checkWin b piece then 1000000
                       else evaluateMoveSimple b piece in
          let b := set_cell b row col EMPTY in
          let score := score + (30 - Z.abs (Z.of_nat col - 3) * 10) in
          let score := if (row <? ROWS - 1)%nat && (cell b (row + 1) col ==c piece)
                       then score + 40 else score in
          (moves_with_score ++ [(col, score)], b)
      end) ([], b) in
  let moves_with_score := std_sort moves_with_score in
  (map fst moves_with_score, b).

Definition count_cells (p : ascii -> bool) (b : board) : Z :=
  for_ 0 ROWS (fun i => for_ 0 COLS (fun j n =>
    if p (cell b i j) then n + 1 else n)) 0.

Definition getAdaptiveDepth (b : board) (base_depth : Z) : Z * board :=
  let '(threatsO, b) := countThreats b PO in
  let '(threatsX, b) := countThreats b PX in
  let threats := threatsO + threatsX in
  if threats >=? 2 then (base_depth + 2, b) else
  if threats =? 1 then (base_depth + 1, b) else
  let moves_played := count_cells (fun ch => negb (ch ==c EMPTY)) b in
  if moves_played <? 8 then (Z.max 3 (base_depth - 1), b) else
  if moves_played >? 30 then (base_depth + 1, b) else
  (base_depth, b).

(** ** Minimax *)

Definition cache_key (b : board) (depth : Z) (maximizingPlayer : bool) : string :=
  getBoardHash b +:+ pretty depth +:+ (if maximizingPlayer then "T" else "F").

(** How a move loop ends: by the [return] inside it, or by running out of
    columns or reaching [break]. *)
Inductive loop_exit :=
  | Returned (bestCol bestScore : Z)
  | Finished (bestCol bestScore : Z).

Section Loops.

(** The recursive call [minimax(b, depth - 1, alpha, beta, ...).second],
    with the board and the table it leaves behind. *)
Variable child : board -> gmap string (Z * Z) -> Z -> Z ->
                 option (Z * board * gmap string (Z * Z)).
Variables (key : string) (depth original_depth : Z).

Fixpoint max_loop (beta : Z) (cols : list nat) (b : board)
  (memo : gmap string (Z * Z)) (alpha bestCol bestScore : Z)
  : option (loop_exit * board * gmap string (Z * Z)) :=
  match cols with
  | [] => Some (Finished bestCol bestScore, b, memo)
  | col :: rest =>
      match getNextOpenRow b col with
      | None => None
      | Some row =>
          let b := set_cell b row col PO in
          match child b memo alpha beta with
          | None => None
          | Some (score, b, memo) =>
              let b := set_cell b row col EMPTY in
              let better := score >? bestScore in
              let bestScore := if better then score else bestScore in
              let bestCol := if better then Z.of_nat col else bestCol in
              if better && (depth =? original_depth) && (score >? 900000)
              then Some (Returned bestCol bestScore, b,
                         <[key := (bestCol, bestScore)]> memo)
              else
                let alpha := Z.max alpha bestScore in
                if alpha >=? beta
                then Some (Finished bestCol bestScore, b, memo)
                else max_loop beta rest b memo alpha bestCol bestScore
          end
      end
  end.

Fixpoint min_loop (alpha : Z) (cols : list nat) (b : board)
  (memo : gmap string (Z * Z)) (beta bestCol bestScore : Z)
  : option (loop_exit * board * gmap string (Z * Z)) :=
  match cols with
  | [] => Some (Finished bestCol bestScore, b, memo)
  | col :: rest =>
      match getNextOpenRow b col with
      | None => None
      | Some row =>
          let b := set_cell b row col PX in
          match child b memo alpha beta with
          | None => None
          | Some (score, b, memo) =>
              let b := set_cell b row col EMPTY in
              let better := score <? bestScore in
              let bestScore := if better then score else bestScore in
              let bestCol := if better then Z.of_nat col else bestCol in
              let beta := Z.min beta bestScore in
              if beta <=? alpha
              then Some (Finished bestCol bestScore, b, memo)
              else min_loop alpha rest b memo beta bestCol bestScore
          end
      end
  end.

End Loops.

(** [minimax].  Every recursive call is made on a board with one more piece,
    so [fuel] larger than the number of empty cells is never used up; [None]
    is the result when it is, or when a move loop would index row [-1]. *)
Fixpoint minimax_fuel (fuel : nat) (b : board) (memo : gmap string (Z * Z))
  (depth alpha beta : Z) (maximizingPlayer isScoreAttack : bool)
  (original_depth : Z) : option ((Z * Z) * board * gmap string (Z * Z)) :=
  match fuel with
  | O => None
  | S fuel =>
    let key := cache_key b depth maximizingPlayer in
    match memo !! key with
    | Some hit => Some (hit, b, memo)
    | None =>
      if negb isScoreAttack && checkWin b PO
      then Some ((-1, 1000000 + depth), b, memo) else
      if negb isScoreAttack && checkWin b PX
      then Some ((-1, -1000000 - depth), b, memo) else
      let empty_cells := count_cells (fun ch => ch ==c EMPTY) b in
      let depth := if (empty_cells <=? original_depth * 2) && negb isScoreAttack
                   then empty_cells else depth in
      if depth =? 0 then Some ((-1, evaluateBoard b PO), b, memo) else
      let '(valid_locs, b) := getOptimizedMoves b maximizingPlayer in
      match valid_locs with
      | [] => Some ((-1, 0), b, memo)
      | first :: _ =>
        let bestCol := Z.of_nat first in
        let bestScore := if maximizingPlayer then INT_MIN else INT_MAX in
        let child (side : bool) b memo alpha beta :=
          match minimax_fuel fuel b memo (depth - 1) alpha beta side
                             isScoreAttack original_depth with
          | Some (r, b, memo) => Some (r.2, b, memo)
          | None => None
          end in
        let looped :=
          if maximizingPlayer
          then max_loop (child false) key depth original_depth
                        beta valid_locs b memo alpha bestCol bestScore
          else min_loop (child true)
                        alpha valid_locs b memo beta bestCol bestScore in
        match looped with
        | None => None
        | Some (Returned bestCol bestScore, b, memo) =>
            Some ((bestCol, bestScore), b, memo)
        | Some (Finished bestCol bestScore, b, memo) =>
            let memo := if Z.of_nat (size memo) <? MAX_MEMORY_SIZE
                        then <[key := (bestCol, bestScore)]> memo
                        else ∅ in
            Some ((bestCol, bestScore), b, memo)
        end
      end
    end
  end.

(** A board has [ROWS * COLS] cells, so this fuel is always enough. *)
Definition minimax (b : board) (memo : gmap string (Z * Z))
  (depth alpha beta : Z) (maximizingPlayer isScoreAttack : bool)
  (original_depth : Z) : option ((Z * Z) * board * gmap string (Z * Z)) :=
  minimax_fuel (S (ROWS * COLS)) b memo depth alpha beta
               maximizingPlayer isScoreAttack original_depth.

(** ** The search with the cache disabled

    The reference the cache is compared with: the same search, written from
    the specification of the searcher, with no lookup and no insertion.  It
    places a piece on a copy of the board, so nothing has to be restored. *)

Section NoCacheLoops.

Variable child : board -> Z -> Z -> option Z.
Variables (depth original_depth : Z) (b : board).

Fixpoint max_loop_nocache (beta : Z) (cols : list nat)
  (alpha bestCol bestScore : Z) : option (Z * Z) :=
  match cols with
  | [] => Some (bestCol, bestScore)
  | col :: rest =>
      match getNextOpenRow b col with
      | None => None
      | Some row =>
          match child (set_cell b row col PO) alpha beta with
          | None => None
          | Some score =>
              let better := score >? bestScore in
              let bestScore := if better then score else bestScore in
              let bestCol := if better then Z.of_nat col else bestCol in
              if better && (depth =? original_depth) && (score >? 900000)
              then Some (bestCol, bestScore)
              else
                let alpha := Z.max alpha bestScore in
                if alpha >=? beta then Some (bestCol, bestScore)
                else max_loop_nocache beta rest alpha bestCol bestScore
          end
      end
  end.

Fixpoint min_loop_nocache (alpha : Z) (cols : list nat)
  (beta bestCol bestScore : Z) : option (Z * Z) :=
  match cols with
  | [] => Some (bestCol, bestScore)
  | col :: rest =>
      match getNextOpenRow b col with
      | None => None
      | Some row =>
          match child (set_cell b row col PX) alpha beta with
          | None => None
          | Some score =>
              let better := score <? bestScore in
              let bestScore := if better then score else bestScore in
              let bestCol := if better then Z.of_nat col else bestCol in
              let beta := Z.min beta bestScore in
              if beta <=? alpha then Some (bestCol, bestScore)
              else min_loop_nocache alpha rest beta bestCol bestScore
          end
      end
  end.

End NoCacheLoops.

Fixpoint minimax_nocache_fuel (fuel : nat) (b : board)
  (depth alpha beta : Z) (maximizingPlayer isScoreAttack : bool)
  (original_depth : Z) : option (Z * Z) :=
  match fuel with
  | O => None
  | S fuel =>
      if negb isScoreAttack && checkWin b PO
      then Some (-1, 1000000 + depth) else
      if negb isScoreAttack && checkWin b PX
      then Some (-1, -1000000 - depth) else
      let empty_cells := count_cells (fun ch => ch ==c EMPTY) b in
      let depth := if (empty_cells <=? original_depth * 2) && negb isScoreAttack
                   then empty_cells else depth in
      if depth =? 0 then Some (-1, evaluateBoard b PO) else
      match (getOptimizedMoves b maximizingPlayer).1 with
      | [] => Some (-1, 0)
      | first :: rest =>
          let child (side : bool) b alpha beta :=
            match minimax_nocache_fuel fuel b (depth - 1) alpha beta side
                                       isScoreAttack original_depth with
            | Some r => Some r.2
            | None => None
            end in
          if maximizingPlayer
          then max_loop_nocache (child false) depth original_depth b
                 beta (first :: rest) alpha (Z.of_nat first) INT_MIN
          else min_loop_nocache (child true) b
                 alpha (first :: rest) beta (Z.of_nat first) INT_MAX
      end
  end.

Definition minimax_nocache (b : board) (depth alpha beta : Z)
  (maximizingPlayer isScoreAttack : bool) (original_depth : Z)
  : option (Z * Z) :=
  minimax_nocache_fuel (S (ROWS * COLS)) b depth alpha beta
                       maximizingPlayer isScoreAttack original_depth.

End Search.

(** ** [std::sort] on the candidate columns

    [getOptimizedMoves] sorts at most [COLS] = 7 pairs.  The standard
    libraries sort a range this short by insertion: each element in turn
    moves in front of the elements that the comparison of the call,
    [a.second > b.second], puts it before, and of no other, so pairs with
    equal scores keep the order in which they were pushed. *)

Definition goes_before (x y : nat * Z) : bool := x.2 >? y.2.

Fixpoint insert_by (x : nat * Z) (l : list (nat * Z)) : list (nat * Z) :=
  match l with
  | [] => [x]
  | y :: l' => if goes_before x y then x :: l
               else y :: insert_by x l'
  end.

Definition insertion_sort (l : list (nat * Z)) : list (nat * Z) :=
  fold_left (fun acc x => insert_by x acc) l [].

(** ** Placement check and final score *)

(** [isValidPlacement]: the arguments are C++ [int]s and may lie outside the
    board. *)
Definition isValidPlacement (r c : Z) (b : board) : bool :=
  if (r <? 0) || (r >=? Z.of_nat ROWS) || (c <? 0) || (c >=? Z.of_nat COLS)
  then false
  else if r =? Z.of_nat ROWS - 1 then true
  else negb (cell b (Z.to_nat (r + 1)) (Z.to_nat c) ==c EMPTY).

(** [calculateFinalScore] reads the global board; here it takes it. *)
Definition calculateFinalScore (b : board) (player : ascii) : Z :=
  let score := 0 in
  let score := for_ 0 ROWS (fun r score =>
    let streak := 0 in
    let '(streak, score) := for_ 0 COLS (fun c '(streak, score) =>
      if cell b r c ==c player then (streak + 1, score)
      else (0, if streak >=? 4 then score + (streak - 3) else score))
      (streak, score) in
    if streak >=? 4 then score + (streak - 3) else score) score in
  let score := for_ 0 COLS (fun c score =>
    let streak := 0 in
    let '(streak, score) := for_ 0 ROWS (fun r '(streak, score) =>
      if cell b r c ==c player then (streak + 1, score)
      else (0, if streak >=? 4 then score + (streak - 3) else score))
      (streak, score) in
    if streak >=? 4 then score + (streak - 3) else score) score in
  let score := for_ 0 (ROWS - 3) (fun r => for_ 0 (COLS - 3) (fun c score =>
    if four b player r c (r+1) (c+1) (r+2) (c+2) (r+3) (c+3)
    then score + 1 else score)) score in
  let score := for_ 3 ROWS (fun r => for_ 0 (COLS - 3) (fun c score =>
    if four b player r c (r-1) (c+1) (r-2) (c+2) (r-3) (c+3)
    then score + 1 else score)) score in
  score.

(** ** The computer's turn in [main]

    The branch of [main]'s loop that picks the column for 'O'.  [main] works
    on the global board and the global cache; here they are arguments. *)

(** The loop that looks for a column that wins at once or blocks at once.
    It leaves by [break] with the piece still on the copy. *)
Fixpoint immediate_move (cols : list nat) (boardCopy : board)
  (isScoreAttack : bool) (targetCol : Z) : Z * board :=
  match cols with
  | [] => (targetCol, boardCopy)
  | col :: rest =>
      match getNextOpenRow boardCopy col with
      | None => immediate_move rest boardCopy isScoreAttack targetCol
      | Some row =>
          let boardCopy := set_cell boardCopy row col PO in
          if checkWin boardCopy PO && negb isScoreAttack
          then (Z.of_nat col, boardCopy)
          else
            let boardCopy := set_cell boardCopy row col EMPTY in
            let boardCopy := set_cell boardCopy row col PX in
            if checkWin boardCopy PX && negb isScoreAttack
            then (Z.of_nat col, boardCopy)
            else
              let boardCopy := set_cell boardCopy row col EMPTY in
              immediate_move rest boardCopy isScoreAttack targetCol
      end
  end.

(** The fallback loop: the first column with an open row. *)
Fixpoint first_open_column (cols : list nat) (b : board) (targetCol : Z) : Z :=
  match cols with
  | [] => targetCol
  | k :: rest =>
      match getNextOpenRow b k with
      | Some _ => Z.of_nat k
      | None => first_open_column rest b targetCol
      end
  end.

(** The chosen column, with the board and the cache as the turn leaves
    them. *)
Definition chooseMove `{StdSort} (b : board) (memo : gmap string (Z * Z))
  (aiDepth : Z) (isScoreAttack : bool)
  : option (Z * board * gmap string (Z * Z)) :=
  let targetCol := -1 in
  let '(adaptive_depth, b) := getAdaptiveDepth b aiDepth in
  let boardCopy := b in
  let '(targetCol, boardCopy) :=
    immediate_move (seq 0 COLS) boardCopy isScoreAttack targetCol in
  let searched :=
    if targetCol =? -1
    then match minimax boardCopy memo adaptive_depth INT_MIN INT_MAX true
                       isScoreAttack adaptive_depth with
         | Some (result, _, memo) => Some (result.1, memo)
         | None => None
         end
    else Some (targetCol, memo) in
  match searched with
  | None => None
  | Some (targetCol, memo) =>
      let targetCol :=
        if targetCol =? -1 then first_open_column (seq 0 COLS) b targetCol
        else targetCol in
      Some (targetCol, b, memo)
  end.

(** ** A column that is not on the board

    [main] passes the number a person types, less one, to [dropPiece], and
    [dropPiece] passes it to [getNextOpenRow]; neither tests it.  The
    compiled program addresses [b[r][col]] as the byte at offset
    [r * COLS + col] from the start of the array: a cell of another column
    when the offset is inside the array, a byte of the memory around the
    array otherwise.  [outside] gives the bytes around the array. *)

Definition offset (r : nat) (col : Z) : Z := Z.of_nat r * Z.of_nat COLS + col.

Definition in_array (o : Z) : bool :=
  (0 <=? o) && (o <? Z.of_nat (ROWS * COLS)).

(** [b[r][col]] for an [int] column. *)
Definition read_int (outside : Z -> ascii) (b : board) (r : nat) (col : Z)
  : ascii :=
  let o := offset r col in
  if in_array o then default "000"%char (b !! Z.to_nat o) else outside o.

Fixpoint scan_open_int (outside : Z -> ascii) (b : board) (col : Z) (n : nat)
  : option nat :=
  match n with
  | O => None
  | S r => if read_int outside b r col ==c EMPTY then Some r
           else scan_open_int outside b col r
  end.

(** [getNextOpenRow] as [main] reaches it, for any [int] column. *)
Definition getNextOpenRow_int (outside : Z -> ascii) (b : board) (col : Z)
  : option nat :=
  scan_open_int outside b col ROWS.

(** [dropPiece] as [main] calls it, for any [int] column.  The result is
    [None] when the piece is written outside the array: into memory that the
    source does not name. *)
Definition dropPiece_int (outside : Z -> ascii) (b : board) (col : Z)
  (player : ascii) : option (bool * board) :=
  match getNextOpenRow_int outside b col with
  | Some row =>
      let o := offset row col in
      if in_array o then Some (true, <[Z.to_nat o := player]> b) else None
  | None => Some (false, b)
  end.

(** ** The game loop of [main]

    The variables that the loop of [main] reads and writes, with the global
    board and the global cache. *)
Record game := Game {
  gm_board : board;
  gm_memo : gmap string (Z * Z);
  gm_moves : Z;
  gm_current : ascii;
  gm_gameOver : bool;
  gm_s1 : Z;
  gm_s2 : Z }.

(** The state in which the loop is entered. *)
Definition new_game : game := Game initBoard ∅ 0 PX false 0 0.

(** One pass through the body of the loop.  [input] is the number that
    [getUserInput] returns when a person is asked for a column, whatever it
    is, and [outside] the bytes around the array during the pass.  The
    result is [None] when [dropPiece] writes outside the array (or the
    search ran out of fuel). *)
Definition turn `{StdSort} (gameMode : Z) (isAI : bool) (aiDepth : Z)
  (input : Z) (outside : Z -> ascii) (g : game) : option game :=
  let isScoreAttack := gameMode =? 2 in
  let b := gm_board g in
  let memo := gm_memo g in
  let moves := gm_moves g in
  let current := gm_current g in
  let gameOver := gm_gameOver g in
  let '(s1, s2) :=
    if gameMode =? 2
    then (calculateFinalScore b PX, calculateFinalScore b PO)
    else (gm_s1 g, gm_s2 g) in
  let chosen :=
    if isAI && (current ==c PO)
    then chooseMove b memo aiDepth isScoreAttack
    else Some (input - 1, b, memo) in
  match chosen with
  | None => None
  | Some (targetCol, b, memo) =>
      match dropPiece_int outside b targetCol current with
      | None => None
      | Some (true, b) =>
          let moves := moves + 1 in
          let '(s1, s2, gameOver) :=
            if gameMode =? 1
            then
              if checkWin b current
              then
                let '(s1, s2) := if current ==c PX then (1, s2) else (s1, 1) in
                (s1, s2, true)
              else (s1, s2, gameOver)
            else (s1, s2, gameOver) in
          let current :=
            if negb gameOver then (if current ==c PX then PO else PX)
            else current in
          Some (Game b memo moves current gameOver s1 s2)
      | Some (false, b) => Some (Game b memo moves current gameOver s1 s2)
      end
  end.

(** The loop of [main] run on a list of typed numbers, each with the bytes
    around the array at the time: the state in which the loop condition is
    evaluated next. *)
Fixpoint play `{StdSort} (gameMode : Z) (isAI : bool) (aiDepth : Z)
  (inputs : list (Z * (Z -> ascii))) (g : game) : option game :=
  match inputs with
  | [] => Some g
  | (input, outside) :: rest =>
      if negb (gm_gameOver g) && (gm_moves g <? Z.of_nat (ROWS * COLS))
      then match turn gameMode isAI aiDepth input outside g with
           | Some g => play gameMode isAI aiDepth rest g
           | None => None
           end
      else Some g
  end.

(** * Notions the properties are stated with *)

(** ** Patterns of a window *)

(** The patterns of the scoring table, stated on the four cells of a window
    without reference to the counters of [evaluateWindow]. *)
Definition count_of (p : ascii -> bool) (w : list ascii) : nat :=
  length (List.filter p w).

Definition own_cells (piece : ascii) (w : list ascii) : nat :=
  count_of (fun c => c ==c piece) w.
Definition empty_cells_of (w : list ascii) : nat :=
  count_of (fun c => c ==c EMPTY) w.
Definition opp_cells (piece : ascii) (w : list ascii) : nat :=
  count_of (fun c => negb (c ==c piece) && negb (c ==c EMPTY)) w.

Definition both_ends_empty (c1 c4 : ascii) : Prop := c1 = EMPTY /\ c4 = EMPTY.

Definition adjacent_pair (piece c1 c2 c3 c4 : ascii) : Prop :=
  (c1 = piece /\ c2 = piece) \/ (c2 = piece /\ c3 = piece)
  \/ (c3 = piece /\ c4 = piece).

(** ** The windows of the board and the bonuses *)

(** The windows of the board, stated from the geometry: a start cell and one
    of the four scanning directions, kept when all four cells are on the
    board. *)
Inductive direction := Horizontal | Vertical | DiagRight | DiagLeft.

(** The cell [k] steps from [(r, c)] along [d], if it is on the board. *)
Definition step_to (d : direction) (r c k : nat) : option (nat * nat) :=
  let target :=
    match d with
    | Horizontal => Some (r, c + k)
    | Vertical => Some (r + k, c)
    | DiagRight => Some (r + k, c + k)
    | DiagLeft => if (k <=? c)%nat then Some (r + k, c - k) else None
    end%nat in
  match target with
  | Some (r', c') =>
      if (r' <? ROWS)%nat && (c' <? COLS)%nat then Some (r', c') else None
  | None => None
  end.

Definition window_cells (d : direction) (r c : nat) : option (list (nat * nat)) :=
  match step_to d r c 0, step_to d r c 1, step_to d r c 2, step_to d r c 3 with
  | Some p0, Some p1, Some p2, Some p3 => Some [p0; p1; p2; p3]
  | _, _, _, _ => None
  end.

Definition all_windows : list (list (nat * nat)) :=
  flat_map (fun d =>
    flat_map (fun r =>
      flat_map (fun c =>
        match window_cells d r c with Some w => [w] | None => [] end)
      (seq 0 COLS))
    (seq 0 ROWS))
  [Horizontal; Vertical; DiagRight; DiagLeft].

Definition window_score (b : board) (piece : ascii) (w : list (nat * nat)) : Z :=
  match w with
  | [(r1, c1); (r2, c2); (r3, c3); (r4, c4)] =>
      evaluateWindow (cell b r1 c1) (cell b r2 c2) (cell b r3 c3) (cell b r4 c4)
                     piece
  | _ => 0
  end.

Definition sum_list (l : list Z) : Z := fold_right Z.add 0 l.

Definition windows_total (b : board) (piece : ascii) : Z :=
  sum_list (map (window_score b piece) all_windows).

(** Own pieces in column [c]. *)
Definition pieces_in_column (b : board) (piece : ascii) (c : nat) : Z :=
  Z.of_nat (length (List.filter (fun r => cell b r c ==c piece) (seq 0 ROWS))).

(** Rows holding an own piece in a column next to the centre. *)
Definition rows_touching_centre (b : board) (piece : ascii) : Z :=
  Z.of_nat (length (List.filter
    (fun r => (cell b r 2 ==c piece) || (cell b r 4 ==c piece)) (seq 0 ROWS))).

(** The evaluation as the claim words it: 100 for each own piece in either
    neighbour column. *)
Definition evaluateBoard_per_piece (b : board) (piece : ascii) : Z :=
  windows_total b piece
  + 200 * pieces_in_column b piece 3
  + 100 * (pieces_in_column b piece 2 + pieces_in_column b piece 4).

(** ** Gravity and reachable boards *)

Definition gravity (b : board) : Prop :=
  forall r c, (r + 1 < ROWS)%nat -> (c < COLS)%nat ->
    cell b r c <> EMPTY -> cell b (r + 1) c <> EMPTY.

Definition nothing_floats (b : board) : Prop :=
  forall r r' c, (r' < r)%nat -> (r < ROWS)%nat -> (c < COLS)%nat ->
    cell b r c = EMPTY -> cell b r' c = EMPTY.

(** Boards reached from the empty board by [dropPiece] in a column of the
    board and by undoing the cell placed last; the list holds the cells
    placed and not yet undone, the latest first. *)
Inductive reachable : board -> list (nat * nat) -> Prop :=
  | reach_init : reachable initBoard []
  | reach_drop b placed col player :
      reachable b placed -> (col < COLS)%nat ->
      reachable (dropPiece b col player).2
                (match getNextOpenRow b col with
                 | Some row => (row, col) :: placed
                 | None => placed
                 end)
  | reach_undo b placed row col :
      reachable b ((row, col) :: placed) ->
      reachable (set_cell b row col EMPTY) placed.

(** Every cell placed and not yet undone can be cleared, latest first,
    without leaving a piece in the air. *)
Fixpoint undoable (b : board) (placed : list (nat * nat)) : Prop :=
  match placed with
  | [] => gravity b
  | (row, col) :: placed => gravity b /\ undoable (set_cell b row col EMPTY) placed
  end.

(** ** Scores of the candidate columns *)

(** The score [getOptimizedMoves] gives to dropping [piece] in [col], where
    [row] is the open row of that column. *)
Definition provisional_score (b : board) (piece : ascii) (col row : nat) : Z :=
  let placed := set_cell b row col piece in
  (if checkWin placed piece then 1000000 else evaluateBoard placed piece)
  + (30 - Z.abs (Z.of_nat col - 3) * 10)
  + (if (row <? ROWS - 1)%nat && (cell b (row + 1) col ==c piece) then 40 else 0).

Definition column_score (b : board) (piece : ascii) (col : nat) : Z :=
  match getNextOpenRow b col with
  | Some row => provisional_score b piece col row
  | None => 0
  end.

Definition open_columns (b : board) : list nat :=
  List.filter (fun col => bool_decide (is_Some (getNextOpenRow b col))) (seq 0 COLS).

Definition scored_moves (b : board) (piece : ascii) : list (nat * Z) :=
  map (fun col => (col, column_score b piece col)) (open_columns b).

Definition side_piece (maximizingPlayer : bool) : ascii :=
  if maximizingPlayer then PO else PX.

(** ** Cells, threats and occupancy *)

Definition all_cells : list (nat * nat) := list_prod (seq 0 ROWS) (seq 0 COLS).

(** The empty cells of the board: every recursive call of [minimax] is made
    with one fewer. *)
Definition open_cells (b : board) : nat :=
  length (List.filter (fun p : nat * nat => cell b p.1 p.2 ==c EMPTY) all_cells).

(** Dropping [piece] in [col] completes a line. *)
Definition wins_by_playing (b : board) (piece : ascii) (col : nat) : bool :=
  match dropPiece b col piece with
  | (true, b') => checkWin b' piece
  | (false, _) => false
  end.

(** The immediate one-move wins of [piece]. *)
Definition immediate_wins (b : board) (piece : ascii) : Z :=
  Z.of_nat (length (List.filter (wins_by_playing b piece) (seq 0 COLS))).

Definition threats_on (b : board) : Z :=
  immediate_wins b PO + immediate_wins b PX.

Definition occupied_cells (b : board) : Z :=
  Z.of_nat (length (List.filter
    (fun p : nat * nat => negb (cell b p.1 p.2 ==c EMPTY)) all_cells)).

Definition adaptive_rule (threats occupied base : Z) : Z :=
  if 2 <=? threats then base + 2
  else if threats =? 1 then base + 1
  else if occupied <? 8 then Z.max 3 (base - 1)
  else if 30 <? occupied then base + 1
  else base.

(** Columns of equal score appear in ascending column order. *)
Definition ties_in_column_order (b : board) (piece : ascii) (moves : list nat) : Prop :=
  forall i j ci cj, (i < j)%nat -> moves !! i = Some ci -> moves !! j = Some cj ->
    column_score b piece ci = column_score b piece cj -> (ci < cj)%nat.

(** Descending score, and ascending column among equal scores. *)
Definition before_stably (b : board) (piece : ascii) (c1 c2 : nat) : Prop :=
  column_score b piece c2 < column_score b piece c1
  \/ (column_score b piece c2 = column_score b piece c1 /\ (c1 < c2)%nat).

Definition before_pair (a b : nat * Z) : Prop :=
  b.2 < a.2 \/ (b.2 = a.2 /\ (a.1 < b.1)%nat).

Definition is_full (b : board) : bool :=
  forallb (fun p : nat * nat => negb (cell b p.1 p.2 ==c EMPTY)) all_cells.

(** ** Lines, legal columns and sound caches *)

(** [player] holds every cell of the window. *)
Definition owns (b : board) (player : ascii) (w : list (nat * nat)) : bool :=
  forallb (fun q : nat * nat => cell b q.1 q.2 ==c player) w.

(** The column is on the board and not full. *)
Definition legal_column (b : board) (col : Z) : Prop :=
  0 <= col /\ (Z.to_nat col < COLS)%nat
  /\ getNextOpenRow b (Z.to_nat col) <> None.

(** Every entry of the cache that belongs to a board of [ROWS * COLS] cells
    names a column that is legal on that board. *)
Definition cache_sound (memo : gmap string (Z * Z)) : Prop :=
  forall b depth maximizingPlayer v,
    length b = (ROWS * COLS)%nat ->
    memo !! cache_key b depth maximizingPlayer = Some v -> legal_column b v.1.

(** A recursive call that hands the board back and keeps the cache sound,
    on boards with fewer than [n] empty cells. *)
Definition child_sound
  (child : board -> gmap string (Z * Z) -> Z -> Z ->
           option (Z * board * gmap string (Z * Z))) (n : nat) : Prop :=
  forall b memo alpha beta score b' memo',
    (open_cells b < n)%nat -> length b = (ROWS * COLS)%nat -> cache_sound memo ->
    child b memo alpha beta = Some (score, b', memo') ->
    b' = b /\ cache_sound memo'.

(** ** States of the game *)

(** The states in which the loop condition of [main] is evaluated, in every
    run in which [dropPiece] has not written outside the array. *)
Inductive played `{StdSort} (gameMode : Z) (isAI : bool) (aiDepth : Z)
  : game -> Prop :=
  | played_start : played gameMode isAI aiDepth new_game
  | played_turn g input outside g' :
      played gameMode isAI aiDepth g ->
      gm_gameOver g = false -> gm_moves g < Z.of_nat (ROWS * COLS) ->
      turn gameMode isAI aiDepth input outside g = Some g' ->
      played gameMode isAI aiDepth g'.

(** The cells that hold [piece]. *)
Definition pieces (b : board) (piece : ascii) : Z :=
  Z.of_nat (length (List.filter
    (fun q : nat * nat => cell b q.1 q.2 ==c piece) all_cells)).

(** The other player. *)
Definition opponent (piece : ascii) : ascii :=
  if piece ==c PX then PO else PX.

(** What holds of the variables of [main] each time the loop condition is
    evaluated. *)
Definition loop_invariant (gameMode : Z) (g : game) : Prop :=
  let b := gm_board g in
  let current := gm_current g in
  length b = (ROWS * COLS)%nat
  /\ cache_sound (gm_memo g)
  /\ gm_moves g = occupied_cells b
  /\ gm_moves g = pieces b PX + pieces b PO
  /\ (current = PX \/ current = PO)
  /\ pieces b PX - pieces b PO
     = Z.b2z (xorb (current ==c PO) (gm_gameOver g))
  /\ (gm_gameOver g = true ->
      gameMode = 1 /\ checkWin b current = true
      /\ checkWin b (opponent current) = false
      /\ (if current ==c PX then gm_s1 g else gm_s2 g) = 1)
  /\ (gameMode = 1 -> gm_gameOver g = false ->
      checkWin b PX = false /\ checkWin b PO = false).

(** ** Sample boards *)

Definition board_of_string (s : string) : board := list_ascii_of_string s.

(** The empty board with X at the bottom of columns 2 and 4. *)
Definition flank_board : board :=
  board_of_string ("       " +:+ "       " +:+ "       " +:+
                   "       " +:+ "       " +:+ "  X X  ").

(** Five pieces, no immediate win. *)
Definition opening_board : board :=
  board_of_string ("       " +:+ "       " +:+ "       " +:+
                   "       " +:+ " O    X" +:+ "XX    O").

(** Thirty-two pieces, no immediate win. *)
Definition endgame_board : board :=
  board_of_string ("  X OO " +:+ "O X OOO" +:+ "XOX XXO" +:+
                   "XXO XOX" +:+ "XXO XXO" +:+ "OOX OOX").

(** One immediate win on the board. *)
Definition one_threat_board : board :=
  board_of_string ("       " +:+ "       " +:+ "  O    " +:+
                   " OO    " +:+ " XX X O" +:+ "XXXOXOO").

(** Three immediate wins on the board. *)
Definition many_threats_board : board :=
  board_of_string ("  X    " +:+ "  X    " +:+ "  O    " +:+
                   "X X O X" +:+ "XOO OXO" +:+ "XXOOOXO").

(** A full board without a line of four. *)
Definition draw_board : board :=
  board_of_string ("XXOOXXO" +:+ "OOXXOOX" +:+ "XXOOXXO" +:+
                   "OOXXOOX" +:+ "XXOOXXO" +:+ "OOXXOOX").

(** A position of a classic game with 'O' to move: 35 pieces, no immediate
    win for either side, so the program searches it at depth 3 on the
    easiest setting. *)
Definition transposition_board : board :=
  board_of_string ("OXO    " +:+ "XOXX  X" +:+ "OOXO XX" +:+
                   "XXOXXOO" +:+ "OXOOOXX" +:+ "XOOOXOX").

(** The full board without a line, its top left cell taken off. *)
Definition last_move_board : board :=
  board_of_string (" XOOXXO" +:+ "OOXXOOX" +:+ "XXOOXXO" +:+
                   "OOXXOOX" +:+ "XXOOXXO" +:+ "OOXXOOX").

(** A position with five empty cells and 'O' to move, where dropping in
    column 3 completes a row. *)
Definition forced_win_board : board :=
  board_of_string ("XOO OO " +:+ "OXX XX " +:+ "OOO OXO" +:+
                   "OXXOOOX" +:+ "XXXOXOX" +:+ "XXOXXOX").

(** 'X' can complete a column in column 1 and 'O' a line in column 6. *)
Definition block_before_win_board : board :=
  board_of_string ("       " +:+ "       " +:+ "   O X " +:+
                   " X X OX" +:+ " XXOOXO" +:+ "OXXOOXO").

(** The game after a person has typed 0 at the first prompt: the piece of
    'X' lies in the second row from the bottom of the last column, over an
    empty cell. *)
Definition zero_typed : game :=
  Game (set_cell initBoard 4 6 PX) ∅ 1 PO false 0 0.

(** A classic game between two persons after 1, 2, 1, 2, 1, 2, 1 were typed:
    'X' has completed the first column. *)
Definition first_column_won : game :=
  Game (board_of_string ("       " +:+ "       " +:+ "X      " +:+
                         "XO     " +:+ "XO     " +:+ "XO     "))
       ∅ 7 PX true 1 0.

(** The bytes around the array all zero. *)
Definition zero_bytes : Z -> ascii := fun _ => "000"%char.

(** * Properties *)

(** ** Insertion sort meets the contract of [std::sort] *)

Lemma insert_by_perm x l : Permutation (insert_by x l) (x :: l).
Proof.
  induction l as [|y l IH]; simpl; [reflexivity|].
  destruct (goes_before x y); [reflexivity|].
  rewrite IH. apply perm_swap.
Qed.

Lemma insert_by_sorted x l :
  StronglySorted score_ge l -> StronglySorted score_ge (insert_by x l).
Proof.
  induction 1 as [|y l Hs IH Hall]; simpl.
  - repeat constructor.
  - destruct (goes_before x y) eqn:Hb.
    + constructor; [by constructor|].
      assert (score_ge x y) as Hxy
        by (unfold score_ge, goes_before in *; lia).
      constructor; [done|].
      eapply Forall_impl; [exact Hall|]. unfold score_ge in *. simpl. lia.
    + constructor; [done|].
      assert (score_ge y x) as Hyx
        by (unfold score_ge, goes_before in *; lia).
      eapply Permutation_Forall; [symmetry; apply insert_by_perm|].
      by constructor.
Qed.

Lemma insertion_sort_acc_perm l acc :
  Permutation (fold_left (fun acc x => insert_by x acc) l acc) (acc ++ l).
Proof.
  revert acc. induction l as [|x l IH]; intros acc; simpl.
  - by rewrite app_nil_r.
  - rewrite IH, insert_by_perm. simpl. apply Permutation_middle.
Qed.

Lemma insertion_sort_acc_sorted l acc :
  StronglySorted score_ge acc ->
  StronglySorted score_ge (fold_left (fun acc x => insert_by x acc) l acc).
Proof.
  revert acc. induction l as [|x l IH]; intros acc Hacc; simpl; [done|].
  apply IH. by apply insert_by_sorted.
Qed.

(** [std::sort] as the program runs it. *)
#[refine] Definition stable_sort : StdSort := {| std_sort := insertion_sort |}.
Proof.
  - intros l. apply (insertion_sort_acc_perm l []).
  - intros l. apply insertion_sort_acc_sorted. constructor.
Defined.

(** ** Window scoring *)

(** Case analysis on which cells of a window hold the piece and which are
    empty. *)
Ltac window_cases c1 c2 c3 c4 piece :=
  let H1 := fresh in let H2 := fresh in let H3 := fresh in let H4 := fresh in
  let E1 := fresh in let E2 := fresh in let E3 := fresh in let E4 := fresh in
  destruct (Ascii.eqb_spec c1 piece) as [H1|H1],
           (Ascii.eqb_spec c2 piece) as [H2|H2],
           (Ascii.eqb_spec c3 piece) as [H3|H3],
           (Ascii.eqb_spec c4 piece) as [H4|H4];
  destruct (Ascii.eqb_spec c1 EMPTY) as [E1|E1],
           (Ascii.eqb_spec c2 EMPTY) as [E2|E2],
           (Ascii.eqb_spec c3 EMPTY) as [E3|E3],
           (Ascii.eqb_spec c4 EMPTY) as [E4|E4].

(** C7: no window has three cells of the piece, one empty cell and both end
    cells empty, so the branch of [evaluateWindow] that adds 5000 is dead:
    whatever constant stands there, the score is the same. *)
Theorem unstoppable_branch_unreachable (c1 c2 c3 c4 piece : ascii) :
  ~ (own_cells piece [c1; c2; c3; c4] = 3%nat
     /\ empty_cells_of [c1; c2; c3; c4] = 1%nat
     /\ both_ends_empty c1 c4)
  /\ forall k : Z,
       evaluateWindow_with k c1 c2 c3 c4 piece = evaluateWindow c1 c2 c3 c4 piece.
Proof.
  split.
  - intros (_ & Hemp & -> & ->). revert Hemp.
    unfold empty_cells_of, count_of. simpl.
    destruct (c2 ==c EMPTY), (c3 ==c EMPTY); discriminate.
  - intros k. unfold evaluateWindow, evaluateWindow_with.
    destruct (c1 ==c EMPTY), (c4 ==c EMPTY), (c2 ==c EMPTY), (c3 ==c EMPTY);
      destruct (c1 ==c piece), (c2 ==c piece), (c3 ==c piece), (c4 ==c piece);
      reflexivity.
Qed.

(** C3: for a perspective piece other than the empty marker,
    [evaluateWindow] follows the scoring table: four own cells give
    1,000,000; three own and one empty, not both ends empty, give 150; two
    own and two empty give 50 when the pair is adjacent and 60 when it is
    split; three opposing and one empty, not both ends empty, give -500; two
    opposing and two empty give -50.  The three sample windows score 150, 60
    and 50, and a split pair always scores above a connected one. *)
Theorem evaluateWindow_table (piece : ascii) (Hpiece : piece <> EMPTY) :
  (forall c1 c2 c3 c4,
      let w := [c1; c2; c3; c4] in
      let score := evaluateWindow c1 c2 c3 c4 piece in
      (own_cells piece w = 4%nat -> score = 1000000)
      /\ (own_cells piece w = 3%nat -> empty_cells_of w = 1%nat ->
          ~ both_ends_empty c1 c4 -> score = 150)
      /\ (own_cells piece w = 2%nat -> empty_cells_of w = 2%nat ->
          adjacent_pair piece c1 c2 c3 c4 -> score = 50)
      /\ (own_cells piece w = 2%nat -> empty_cells_of w = 2%nat ->
          ~ adjacent_pair piece c1 c2 c3 c4 -> score = 60)
      /\ (opp_cells piece w = 3%nat -> empty_cells_of w = 1%nat ->
          ~ both_ends_empty c1 c4 -> score = -500)
      /\ (opp_cells piece w = 2%nat -> empty_cells_of w = 2%nat ->
          score = -50))
  /\ evaluateWindow " " "X" "X" "X" "X" = 150
  /\ evaluateWindow "X" " " "X" " " "X" = 60
  /\ evaluateWindow "X" "X" " " " " "X" = 50
  /\ (forall c1 c2 c3 c4 d1 d2 d3 d4,
        own_cells piece [c1; c2; c3; c4] = 2%nat ->
        empty_cells_of [c1; c2; c3; c4] = 2%nat ->
        ~ adjacent_pair piece c1 c2 c3 c4 ->
        own_cells piece [d1; d2; d3; d4] = 2%nat ->
        empty_cells_of [d1; d2; d3; d4] = 2%nat ->
        adjacent_pair piece d1 d2 d3 d4 ->
        evaluateWindow d1 d2 d3 d4 piece < evaluateWindow c1 c2 c3 c4 piece).
Proof.
  assert (forall c1 c2 c3 c4,
      let w := [c1; c2; c3; c4] in
      let score := evaluateWindow c1 c2 c3 c4 piece in
      (own_cells piece w = 4%nat -> score = 1000000)
      /\ (own_cells piece w = 3%nat -> empty_cells_of w = 1%nat ->
          ~ both_ends_empty c1 c4 -> score = 150)
      /\ (own_cells piece w = 2%nat -> empty_cells_of w = 2%nat ->
          adjacent_pair piece c1 c2 c3 c4 -> score = 50)
      /\ (own_cells piece w = 2%nat -> empty_cells_of w = 2%nat ->
          ~ adjacent_pair piece c1 c2 c3 c4 -> score = 60)
      /\ (opp_cells piece w = 3%nat -> empty_cells_of w = 1%nat ->
          ~ both_ends_empty c1 c4 -> score = -500)
      /\ (opp_cells piece w = 2%nat -> empty_cells_of w = 2%nat ->
          score = -50)) as Htable.
  { intros c1 c2 c3 c4.
    unfold own_cells, empty_cells_of, opp_cells, count_of, both_ends_empty,
      adjacent_pair, evaluateWindow, evaluateWindow_with; simpl.
    window_cases c1 c2 c3 c4 piece; simpl;
      try congruence;
      repeat split; intros; try discriminate; try reflexivity;
      try tauto; exfalso; tauto. }
  split; [exact Htable|].
  do 3 (split; [reflexivity|]).
  intros c1 c2 c3 c4 d1 d2 d3 d4 Hc1 Hc2 Hc3 Hd1 Hd2 Hd3.
  destruct (Htable c1 c2 c3 c4) as (_ & _ & _ & Hsplit & _).
  destruct (Htable d1 d2 d3 d4) as (_ & _ & Hconn & _).
  simpl in Hsplit, Hconn. rewrite Hsplit, Hconn by assumption. lia.
Qed.

Lemma evaluateWindow_table_witness :
  evaluateWindow "X" "X" "X" "X" "X" = 1000000
  /\ evaluateWindow "O" "O" " " "O" "X" = -500.
Proof.
  assert (PX <> EMPTY) as Hne by discriminate.
  destruct (evaluateWindow_table PX Hne) as (Htable & _).
  split.
  - apply (Htable "X" "X" "X" "X")%char. reflexivity.
  - apply (Htable "O" "O" " " "O")%char; [reflexivity|reflexivity|].
    intros [? _]. discriminate.
Defined.

(** ** Board evaluation *)

Lemma all_windows_count : length all_windows = 69%nat.
Proof. reflexivity. Qed.

Lemma bonus_step (c : bool) (s k : Z) :
  (if c then s + k else s) = s + k * Z.b2z c.
Proof. destruct c; simpl; lia. Qed.

Lemma Zlength_filter_cons {A} (p : A -> bool) x l :
  Z.of_nat (length (List.filter p (x :: l)))
  = Z.b2z (p x) + Z.of_nat (length (List.filter p l)).
Proof. simpl. destruct (p x); simpl; lia. Qed.

Lemma evaluateBoard_decomposed (b : board) (piece : ascii) :
  evaluateBoard b piece
  = windows_total b piece
    + 200 * pieces_in_column b piece 3
    + 100 * rows_touching_centre b piece.
Proof.
  unfold evaluateBoard, windows_total, pieces_in_column, rows_touching_centre.
  let w := eval vm_compute in all_windows in change all_windows with w.
  cbv [for_ seq fold_left ROWS COLS Nat.sub Nat.add Nat.div Nat.divmod fst
       map sum_list fold_right window_score].
  rewrite !Zlength_filter_cons. cbv [List.filter length Z.of_nat].
  rewrite !bonus_step.
  generalize evaluateWindow. intros ew.
  generalize Z.b2z. intros b2z. lia.
Qed.

(** C4, as the code has it: [evaluateBoard] is the sum of [evaluateWindow]
    over every horizontal, vertical and diagonal window, plus 200 for each
    own piece in the centre column, plus 100 for each row that holds an own
    piece in column 2 or in column 4 (once per row, also when both do). *)
Theorem evaluateBoard_windows_and_bonuses (b : board) (piece : ascii) :
  evaluateBoard b piece
  = windows_total b piece
    + 200 * pieces_in_column b piece 3
    + 100 * rows_touching_centre b piece.
Proof. apply evaluateBoard_decomposed. Qed.

(** *** The evaluation stays inside the range of [int] *)

Lemma evaluateWindow_range (c1 c2 c3 c4 piece : ascii) :
  -10000 <= evaluateWindow c1 c2 c3 c4 piece <= 1000000.
Proof.
  unfold evaluateWindow, evaluateWindow_with.
  destruct (c1 ==c EMPTY), (c4 ==c EMPTY), (c2 ==c EMPTY), (c3 ==c EMPTY);
    destruct (c1 ==c piece), (c2 ==c piece), (c3 ==c piece), (c4 ==c piece);
    simpl; lia.
Qed.

Lemma sum_list_range (lo hi : Z) (l : list Z) :
  Forall (fun x => lo <= x <= hi) l ->
  Z.of_nat (length l) * lo <= sum_list l <= Z.of_nat (length l) * hi.
Proof.
  induction 1 as [|x l Hx Hl IH]; [simpl; lia|].
  cbn [sum_list fold_right length] in *. fold (sum_list l) in *. lia.
Qed.

Lemma filter_count_range {A} (p : A -> bool) (l : list A) :
  0 <= Z.of_nat (length (List.filter p l)) <= Z.of_nat (length l).
Proof. pose proof (List.filter_length_le p l). lia. Qed.

Lemma evaluateBoard_range (b : board) (piece : ascii) :
  INT_MIN < evaluateBoard b piece < INT_MAX.
Proof.
  rewrite evaluateBoard_decomposed.
  assert (Z.of_nat (length (map (window_score b piece) all_windows)) * -10000
          <= windows_total b piece
          <= Z.of_nat (length (map (window_score b piece) all_windows)) * 1000000)
    as Hwin.
  { apply sum_list_range, List.Forall_forall. intros x (w & <- & _)%in_map_iff.
    unfold window_score.
    destruct w as [|[r1 k1] [|[r2 k2] [|[r3 k3] [|[r4 k4] [|? ?]]]]]; try lia.
    apply evaluateWindow_range. }
  rewrite length_map, all_windows_count in Hwin.
  pose proof (filter_count_range (fun r => cell b r 3 ==c piece) (seq 0 ROWS)) as Hc.
  pose proof (filter_count_range
                (fun r => (cell b r 2 ==c piece) || (cell b r 4 ==c piece))
                (seq 0 ROWS)) as Hr.
  rewrite length_seq in Hc, Hr.
  unfold pieces_in_column, rows_touching_centre, INT_MIN, INT_MAX, ROWS in *. lia.
Qed.

(** C4 as stated fails: with own pieces on both sides of the centre in one
    row the code adds 100 once, not once per piece. *)
Lemma evaluateBoard_not_per_piece :
  evaluateBoard flank_board PX = 220
  /\ evaluateBoard_per_piece flank_board PX = 320
  /\ evaluateBoard flank_board PX <> evaluateBoard_per_piece flank_board PX.
Proof. vm_compute. repeat split; congruence. Qed.

(** ** Gravity *)

Lemma idx_inj r c r' c' :
  (c < COLS)%nat -> (c' < COLS)%nat -> idx r c = idx r' c' -> r = r' /\ c = c'.
Proof. unfold idx, COLS. lia. Qed.

Lemma cell_set_other b r c v r' c' :
  idx r c <> idx r' c' -> cell (set_cell b r c v) r' c' = cell b r' c'.
Proof.
  intros Hne. unfold cell, set_cell. by rewrite list_lookup_insert_ne.
Qed.

Lemma cell_empty_lookup b r c : cell b r c = EMPTY -> b !! idx r c = Some EMPTY.
Proof.
  unfold cell. destruct (b !! idx r c) as [x|]; simpl; [congruence|discriminate].
Qed.

Lemma cell_set_same b r c v :
  cell b r c = EMPTY -> cell (set_cell b r c v) r c = v.
Proof.
  intros He%cell_empty_lookup. unfold cell, set_cell.
  rewrite list_lookup_insert_eq; [done|]. by eapply lookup_lt_Some.
Qed.

(** Placing on an empty cell and clearing it again gives the board back. *)
Lemma set_cell_undo b r c v :
  cell b r c = EMPTY -> set_cell (set_cell b r c v) r c EMPTY = b.
Proof.
  intros He%cell_empty_lookup. unfold set_cell.
  rewrite list_insert_insert_eq. by apply list_insert_id.
Qed.

Lemma scan_open_spec b col n row :
  scan_open b col n = Some row ->
  (row < n)%nat /\ cell b row col = EMPTY
  /\ forall r, (row < r)%nat -> (r < n)%nat -> cell b r col <> EMPTY.
Proof.
  induction n as [|n IH]; simpl; [discriminate|].
  destruct (Ascii.eqb_spec (cell b n col) EMPTY) as [He|Hne].
  - intros [= <-]. repeat split; [lia|done|]. intros; lia.
  - intros Hs. destruct (IH Hs) as (Hlt & He & Hbelow).
    repeat split; [lia|done|]. intros r Hr1 Hr2.
    destruct (decide (r = n)) as [->|]; [done|]. apply Hbelow; lia.
Qed.

Lemma scan_open_none b col n :
  scan_open b col n = None -> forall r, (r < n)%nat -> cell b r col <> EMPTY.
Proof.
  induction n as [|n IH]; simpl; [intros; lia|].
  destruct (Ascii.eqb_spec (cell b n col) EMPTY) as [He|Hne]; [discriminate|].
  intros Hs r Hr. destruct (decide (r = n)) as [->|]; [done|]. apply IH; [done|lia].
Qed.

Lemma getNextOpenRow_spec b col row :
  getNextOpenRow b col = Some row ->
  (row < ROWS)%nat /\ cell b row col = EMPTY
  /\ forall r, (row < r)%nat -> (r < ROWS)%nat -> cell b r col <> EMPTY.
Proof. apply scan_open_spec. Qed.

Lemma gravity_initBoard : gravity initBoard.
Proof.
  intros r c Hr Hc Hne. exfalso. apply Hne. unfold cell, initBoard.
  rewrite lookup_replicate_2; [done|]. unfold idx, ROWS, COLS in *. lia.
Qed.

Lemma gravity_place b col row player :
  gravity b -> (col < COLS)%nat -> getNextOpenRow b col = Some row ->
  gravity (set_cell b row col player).
Proof.
  intros Hg Hcol (Hrow & He & Hbelow)%getNextOpenRow_spec r c Hr Hc.
  destruct (decide (c = col)) as [->|Hc'].
  - destruct (decide (r = row)) as [->|Hr'].
    + intros _. rewrite cell_set_other by (intros [? _]%idx_inj; lia).
      apply Hbelow; lia.
    + rewrite (cell_set_other _ _ _ _ r) by (intros [? _]%idx_inj; lia).
      intros Hne. destruct (decide (r + 1 = row)%nat) as [<-|Hr''].
      * by destruct (Hg r col Hr Hc Hne).
      * rewrite cell_set_other by (intros [? _]%idx_inj; lia). by apply Hg.
  - rewrite !cell_set_other by (intros [_ ?]%idx_inj; lia). by apply Hg.
Qed.

Lemma undoable_gravity b placed : undoable b placed -> gravity b.
Proof. destruct placed as [|[row col] placed]; simpl; tauto. Qed.

Lemma reachable_undoable b placed : reachable b placed -> undoable b placed.
Proof.
  induction 1 as [|b placed col player Hreach IH Hcol|b placed row col Hreach IH].
  - exact gravity_initBoard.
  - unfold dropPiece. destruct (getNextOpenRow b col) as [row|] eqn:Hrow; simpl;
      [|done].
    split.
    + apply gravity_place; [by eapply undoable_gravity|done|done].
    + apply getNextOpenRow_spec in Hrow as (_ & He & _).
      by rewrite set_cell_undo.
  - simpl in IH. tauto.
Qed.

Lemma gravity_nothing_floats b : gravity b -> nothing_floats b.
Proof.
  intros Hg r r' c Hlt Hr Hc He.
  induction Hlt as [|r Hle IH].
  - destruct (Ascii.eqb_spec (cell b r' c) EMPTY) as [|Hne]; [done|].
    destruct (Hg r' c) as []; [lia|done|done|].
    by replace (r' + 1)%nat with (S r') by lia.
  - apply IH; [lia|].
    destruct (Ascii.eqb_spec (cell b r c) EMPTY) as [|Hne]; [done|].
    destruct (Hg r c) as []; [lia|done|done|].
    by replace (r + 1)%nat with (S r) by lia.
Qed.

(** X21.  On every board reached from the empty board by [dropPiece] in
    columns of the board, 0 to 6, and by undos of the cell placed last, no
    cell below an occupied cell is empty, and every empty cell has only empty
    cells above it. *)
Theorem gravity_invariant (b : board) (placed : list (nat * nat)) :
  reachable b placed -> gravity b /\ nothing_floats b.
Proof.
  intros Hreach%reachable_undoable%undoable_gravity.
  split; [done|]. by apply gravity_nothing_floats.
Qed.

Lemma gravity_invariant_witness :
  gravity (dropPiece (dropPiece initBoard 3 PX).2 3 PO).2.
Proof.
  refine (proj1 (gravity_invariant _ [(4, 3); (5, 3)]%nat _)).
  apply (reach_drop (dropPiece initBoard 3 PX).2 [(5, 3)]%nat 3%nat PO);
    [|unfold COLS; lia].
  apply (reach_drop initBoard [] 3%nat PX); [|unfold COLS; lia].
  apply reach_init.
Defined.

(** ** The helpers restore the board *)

Lemma for_ind {S : Type} (P : S -> Prop) lo hi (body : nat -> S -> S) s :
  P s ->
  (forall i s, (lo <= i)%nat -> (i < hi)%nat -> P s -> P (body i s)) ->
  P (for_ lo hi body s).
Proof.
  intros Hs Hstep. unfold for_.
  assert (forall i, In i (seq lo (hi - lo)) -> (lo <= i)%nat /\ (i < hi)%nat) as Hin
    by (intros i Hi%in_seq; lia).
  revert s Hs Hin. induction (seq lo (hi - lo)) as [|i l IH]; intros s Hs Hin;
    simpl; [done|].
  apply IH.
  - apply Hstep; [apply Hin; by left..|done].
  - intros j Hj. apply Hin. by right.
Qed.

Lemma countThreats_board (b : board) (piece : ascii) : (countThreats b piece).2 = b.
Proof.
  unfold countThreats.
  apply (for_ind (fun s : Z * board => s.2 = b)); [done|].
  intros col [threats b'] _ _ Hb. simpl in Hb. subst b'.
  destruct (getNextOpenRow b col) as [row|] eqn:Hrow; [|done].
  apply getNextOpenRow_spec in Hrow as (_ & He & _). simpl.
  by apply set_cell_undo.
Qed.

Lemma scored_moves_loop (b : board) (piece : ascii) (cols : list nat) acc :
  fold_left (fun (s : list (nat * Z) * board) col =>
      let '(moves_with_score, b) := s in
      match getNextOpenRow b col with
      | None => (moves_with_score, b)
      | Some row =>
          let b := set_cell b row col piece in
          let score := if checkWin b piece then 1000000
                       else evaluateMoveSimple b piece in
          let b := set_cell b row col EMPTY in
          let score := score + (30 - Z.abs (Z.of_nat col - 3) * 10) in
          let score := if (row <? ROWS - 1)%nat && (cell b (row + 1) col ==c piece)
                       then score + 40 else score in
          (moves_with_score ++ [(col, score)], b)
      end) cols (acc, b)
  = (acc ++ map (fun col => (col, column_score b piece col))
              (List.filter (fun col => bool_decide (is_Some (getNextOpenRow b col))) cols),
     b).
Proof.
  revert acc. induction cols as [|col cols IH]; intros acc; simpl.
  - by rewrite app_nil_r.
  - destruct (getNextOpenRow b col) as [row|] eqn:Hrow.
    + rewrite bool_decide_eq_true_2 by eauto. simpl.
      pose proof Hrow as (_ & He & _)%getNextOpenRow_spec.
      rewrite set_cell_undo by done. rewrite IH.
      rewrite <- app_assoc. simpl. do 3 f_equal.
      unfold column_score. rewrite Hrow.
      unfold provisional_score, evaluateMoveSimple, ROWS. simpl. f_equal.
      destruct ((row <? 5)%nat && (cell b (row + 1) col ==c piece)); lia.
    + rewrite bool_decide_eq_false_2 by (intros [? ?]; discriminate).
      apply IH.
Qed.

Section SearchFacts.

Context `{StdSort}.

Lemma getOptimizedMoves_eq (b : board) (maximizingPlayer : bool) :
  getOptimizedMoves b maximizingPlayer
  = (map fst (std_sort (scored_moves b (side_piece maximizingPlayer))), b).
Proof.
  unfold getOptimizedMoves, for_.
  fold (side_piece maximizingPlayer).
  rewrite (scored_moves_loop b (side_piece maximizingPlayer) _ []). reflexivity.
Qed.

Lemma getOptimizedMoves_perm (b : board) (maximizingPlayer : bool) :
  Permutation (getOptimizedMoves b maximizingPlayer).1 (open_columns b).
Proof.
  rewrite getOptimizedMoves_eq. simpl. rewrite std_sort_perm.
  unfold scored_moves. rewrite map_map. simpl. by rewrite map_id.
Qed.

Lemma getOptimizedMoves_open (b : board) (maximizingPlayer : bool) col :
  In col (getOptimizedMoves b maximizingPlayer).1 ->
  (col < COLS)%nat /\ is_Some (getNextOpenRow b col).
Proof.
  intros Hin. eapply Permutation_in in Hin; [|apply getOptimizedMoves_perm].
  apply filter_In in Hin as [Hseq Hopen]. apply in_seq in Hseq.
  apply bool_decide_eq_true in Hopen. split; [lia|done].
Qed.

End SearchFacts.

(** ** The search restores the board and always returns *)

Lemma open_cells_bound b : (open_cells b <= ROWS * COLS)%nat.
Proof.
  unfold open_cells. etransitivity; [apply List.filter_length_le|]. reflexivity.
Qed.

Lemma filter_length_lt {A} (p q : A -> bool) (l : list A) (x0 : A) :
  (forall x, In x l -> q x = true -> p x = true) ->
  In x0 l -> p x0 = true -> q x0 = false ->
  (length (List.filter q l) < length (List.filter p l))%nat.
Proof.
  intros Himp Hin Hp Hq.
  induction l as [|x l IH]; [destruct Hin|].
  assert (length (List.filter q l) <= length (List.filter p l))%nat as Hle.
  { clear -Himp. induction l as [|y l IH]; simpl; [lia|].
    assert (forall x0, In x0 (x :: l) -> q x0 = true -> p x0 = true) as Himp'
      by (intros z [->|Hz]; apply Himp; simpl; auto).
    specialize (IH Himp').
    destruct (q y) eqn:Hqy.
    - rewrite (Himp y) by (simpl; auto). simpl. lia.
    - destruct (p y); simpl; lia. }
  simpl. destruct Hin as [->|Hin].
  - rewrite Hp, Hq. simpl. lia.
  - assert (length (List.filter q l) < length (List.filter p l))%nat as Hlt
      by (apply IH; [intros; apply Himp; simpl; auto|done]).
    destruct (q x) eqn:Hqx.
    + rewrite (Himp x) by (simpl; auto). simpl. lia.
    + destruct (p x); simpl; lia.
Qed.

Lemma open_cells_place b col row v :
  (col < COLS)%nat -> getNextOpenRow b col = Some row -> v <> EMPTY ->
  (open_cells (set_cell b row col v) < open_cells b)%nat.
Proof.
  intros Hcol (Hrow & He & _)%getNextOpenRow_spec Hv. unfold open_cells.
  apply (filter_length_lt _ _ _ (row, col)).
  - intros [r c] [Hr Hc%in_seq]%in_prod_iff. simpl.
    destruct (decide (idx row col = idx r c)) as [Heq|Hne].
    + apply idx_inj in Heq as [-> ->]; [|done|lia].
      rewrite cell_set_same by done. intros Hv'%Ascii.eqb_eq. done.
    + by rewrite cell_set_other.
  - apply in_prod_iff. split; apply in_seq; lia.
  - simpl. by apply Ascii.eqb_eq.
  - simpl. rewrite cell_set_same by done. by apply Ascii.eqb_neq.
Qed.

Section Totality.

Context `{StdSort}.

(** A recursive call that returns and hands the board back, on every board
    with fewer than [n] empty cells. *)
Definition child_restores
  (child : board -> gmap string (Z * Z) -> Z -> Z ->
           option (Z * board * gmap string (Z * Z))) (n : nat) : Prop :=
  forall b memo alpha beta, (open_cells b < n)%nat ->
    exists score memo', child b memo alpha beta = Some (score, b, memo').

Lemma max_loop_restores child key depth original_depth n beta cols b :
  child_restores child n -> (open_cells b <= n)%nat ->
  (forall col, In col cols -> (col < COLS)%nat /\ is_Some (getNextOpenRow b col)) ->
  forall memo alpha bestCol bestScore,
  exists e memo',
    max_loop child key depth original_depth beta cols b memo alpha bestCol bestScore
    = Some (e, b, memo').
Proof.
  intros Hchild Hn. induction cols as [|col cols IH]; intros Hopen memo alpha bestCol bestScore;
    simpl; [eauto|].
  destruct (Hopen col (or_introl eq_refl)) as [Hcol [row Hrow]]. rewrite Hrow.
  destruct (Hchild (set_cell b row col PO) memo alpha beta) as (score & memo' & ->).
  { eapply Nat.lt_le_trans; [by apply open_cells_place|done]. }
  apply getNextOpenRow_spec in Hrow as (_ & He & _).
  rewrite set_cell_undo by done.
  destruct ((score >? bestScore) && (depth =? original_depth) && (score >? 900000));
    [eauto|].
  destruct (Z.max alpha (if score >? bestScore then score else bestScore) >=? beta);
    [eauto|].
  apply IH. intros c Hc. apply Hopen. by right.
Qed.

Lemma min_loop_restores child n alpha cols b :
  child_restores child n -> (open_cells b <= n)%nat ->
  (forall col, In col cols -> (col < COLS)%nat /\ is_Some (getNextOpenRow b col)) ->
  forall memo beta bestCol bestScore,
  exists e memo',
    min_loop child alpha cols b memo beta bestCol bestScore = Some (e, b, memo').
Proof.
  intros Hchild Hn. induction cols as [|col cols IH]; intros Hopen memo beta bestCol bestScore;
    simpl; [eauto|].
  destruct (Hopen col (or_introl eq_refl)) as [Hcol [row Hrow]]. rewrite Hrow.
  destruct (Hchild (set_cell b row col PX) memo alpha beta) as (score & memo' & ->).
  { eapply Nat.lt_le_trans; [by apply open_cells_place|done]. }
  apply getNextOpenRow_spec in Hrow as (_ & He & _).
  rewrite set_cell_undo by done.
  destruct (Z.min beta (if score <? bestScore then score else bestScore) <=? alpha);
    [eauto|].
  apply IH. intros c Hc. apply Hopen. by right.
Qed.

Lemma minimax_fuel_restores fuel :
  forall b memo depth alpha beta maximizingPlayer isScoreAttack original_depth,
  (open_cells b < fuel)%nat ->
  exists r memo',
    minimax_fuel fuel b memo depth alpha beta maximizingPlayer isScoreAttack
                 original_depth = Some (r, b, memo').
Proof.
  induction fuel as [|fuel IH]; intros b memo depth alpha beta mx sa od Hfuel; [lia|].
  cbn [minimax_fuel].
  destruct (memo !! cache_key b depth mx); [eauto|].
  destruct (negb sa && checkWin b PO); [eauto|].
  destruct (negb sa && checkWin b PX); [eauto|].
  set (depth' := if (count_cells _ b <=? od * 2) && negb sa then _ else depth).
  destruct (depth' =? 0); [eauto|].
  pose proof (getOptimizedMoves_open b mx) as Hopen.
  rewrite getOptimizedMoves_eq in *. simpl in Hopen.
  destruct (map fst _) as [|first rest] eqn:Hlocs; [eauto|].
  assert (forall side, child_restores (fun b memo alpha beta =>
     match minimax_fuel fuel b memo (depth' - 1) alpha beta side sa od with
     | Some (r, b, memo) => Some (r.2, b, memo)
     | None => None
     end) fuel) as Hchild.
  { intros side b' memo' alpha' beta' Hb'.
    destruct (IH b' memo' (depth' - 1) alpha' beta' side sa od Hb') as (r & m' & ->).
    eauto. }
  destruct mx.
  - edestruct (max_loop_restores _ (cache_key b depth true) depth' od fuel beta
                 (first :: rest) b (Hchild false)) as (e & memo' & ->);
      [lia|done|]. destruct e; eauto.
  - edestruct (min_loop_restores _ fuel alpha
                 (first :: rest) b (Hchild true)) as (e & memo' & ->);
      [lia|done|]. destruct e; eauto.
Qed.

End Totality.

(** C10: [minimax] always returns, and when it does the board is the board
    it was given, whichever way it left (cache hit, terminal position, leaf,
    pruning break, forced-win return); [getOptimizedMoves] and
    [countThreats] hand the board back unchanged as well. *)
Theorem search_restores_board `{StdSort} (b : board) (memo : gmap string (Z * Z))
  (depth alpha beta : Z) (maximizingPlayer isScoreAttack : bool)
  (original_depth : Z) (piece : ascii) :
  (exists r memo',
      minimax b memo depth alpha beta maximizingPlayer isScoreAttack
              original_depth = Some (r, b, memo'))
  /\ (getOptimizedMoves b maximizingPlayer).2 = b
  /\ (countThreats b piece).2 = b.
Proof.
  split; [|split].
  - apply minimax_fuel_restores. pose proof (open_cells_bound b). lia.
  - by rewrite getOptimizedMoves_eq.
  - apply countThreats_board.
Qed.

(** ** Depth adaptation *)

Lemma countThreats_loop (b : board) (piece : ascii) (cols : list nat) (n : Z) :
  fold_left (fun (s : Z * board) col =>
      let '(threats, b) := s in
      match getNextOpenRow b col with
      | Some row =>
          let b := set_cell b row col piece in
          let threats := if checkWin b piece then threats + 1 else threats in
          let b := set_cell b row col EMPTY in
          (threats, b)
      | None => (threats, b)
      end) cols (n, b)
  = (n + Z.of_nat (length (List.filter (wins_by_playing b piece) cols)), b).
Proof.
  revert n. induction cols as [|col cols IH]; intros n.
  - simpl. f_equal. lia.
  - cbn [fold_left]. rewrite Zlength_filter_cons.
    assert (wins_by_playing b piece col
            = match getNextOpenRow b col with
              | Some row => checkWin (set_cell b row col piece) piece
              | None => false
              end) as ->
      by (unfold wins_by_playing, dropPiece; by destruct (getNextOpenRow b col)).
    destruct (getNextOpenRow b col) as [row|] eqn:Hrow.
    + pose proof Hrow as (_ & He & _)%getNextOpenRow_spec.
      rewrite set_cell_undo by done. rewrite IH. f_equal.
      destruct (checkWin (set_cell b row col piece) piece); simpl; lia.
    + rewrite IH. reflexivity.
Qed.

Lemma countThreats_count (b : board) (piece : ascii) :
  (countThreats b piece).1 = immediate_wins b piece.
Proof. unfold countThreats, for_. by rewrite countThreats_loop. Qed.

Lemma count_loop {A} (c : A -> bool) (l : list A) (n : Z) :
  fold_left (fun n x => if c x then n + 1 else n) l n
  = n + Z.of_nat (length (List.filter c l)).
Proof.
  revert n. induction l as [|x l IH]; intros n; simpl; [lia|].
  rewrite IH. destruct (c x); simpl; lia.
Qed.

Lemma count_grid (q : nat -> nat -> bool) (rows cols : list nat) (n : Z) :
  fold_left (fun n i => fold_left (fun n j => if q i j then n + 1 else n) cols n)
            rows n
  = n + Z.of_nat (length (List.filter (fun p : nat * nat => q p.1 p.2)
                                      (list_prod rows cols))).
Proof.
  revert n. induction rows as [|i rows IH]; intros n; simpl; [lia|].
  rewrite IH, (count_loop (q i)), List.filter_app, length_app.
  assert (length (List.filter (fun p : nat * nat => q p.1 p.2) (map (fun y => (i, y)) cols))
          = length (List.filter (q i) cols)) as ->.
  { clear. induction cols as [|j cols IH]; simpl; [done|].
    destruct (q i j); simpl; by rewrite IH. }
  lia.
Qed.

Lemma count_cells_filter (p : ascii -> bool) (b : board) :
  count_cells p b
  = Z.of_nat (length (List.filter (fun q : nat * nat => p (cell b q.1 q.2)) all_cells)).
Proof.
  unfold count_cells, for_, all_cells.
  by rewrite (count_grid (fun i j => p (cell b i j))).
Qed.

(** C8: [getAdaptiveDepth] returns base + 2 with two or more immediate wins
    on the board (both sides counted), base + 1 with exactly one, and
    otherwise max(3, base - 1) below 8 occupied cells, base + 1 above 30,
    and base in between.  With base 4: 5 occupied cells and no threat give
    3, 32 occupied cells and no threat give 5, one threat gives 5, two or
    more give 6. *)
Theorem getAdaptiveDepth_rule (b : board) (base_depth : Z) :
  (getAdaptiveDepth b base_depth).1
  = adaptive_rule (threats_on b) (occupied_cells b) base_depth
  /\ (threats_on b = 0 -> occupied_cells b = 5 -> (getAdaptiveDepth b 4).1 = 3)
  /\ (threats_on b = 0 -> occupied_cells b = 32 -> (getAdaptiveDepth b 4).1 = 5)
  /\ (threats_on b = 1 -> (getAdaptiveDepth b 4).1 = 5)
  /\ (2 <= threats_on b -> (getAdaptiveDepth b 4).1 = 6).
Proof.
  assert (forall base, (getAdaptiveDepth b base).1
     = adaptive_rule (threats_on b) (occupied_cells b) base) as Hrule.
  { intros base. unfold getAdaptiveDepth.
    pose proof (countThreats_board b PO) as HbO.
    pose proof (countThreats_count b PO) as HtO.
    destruct (countThreats b PO) as [threatsO b1]. simpl in HbO, HtO. subst.
    pose proof (countThreats_board b PX) as HbX.
    pose proof (countThreats_count b PX) as HtX.
    destruct (countThreats b PX) as [threatsX b2]. simpl in HbX, HtX. subst.
    rewrite count_cells_filter. fold (occupied_cells b). fold (threats_on b).
    unfold adaptive_rule.
    destruct (Z.geb_spec (threats_on b) 2), (Z.leb_spec 2 (threats_on b));
      try lia; [done|].
    destruct (threats_on b =? 1); [done|].
    destruct (occupied_cells b <? 8); [done|].
    destruct (Z.gtb_spec (occupied_cells b) 30), (Z.ltb_spec 30 (occupied_cells b));
      try lia; done. }
  split; [apply Hrule|].
  repeat split; intros; rewrite Hrule; unfold adaptive_rule;
    repeat match goal with
    | |- context [?x <=? ?y] => destruct (Z.leb_spec x y); try lia
    | |- context [?x <? ?y] => destruct (Z.ltb_spec x y); try lia
    | |- context [?x =? ?y] => destruct (Z.eqb_spec x y); try lia
    end.
Qed.

Lemma getAdaptiveDepth_rule_witness :
  (getAdaptiveDepth opening_board 4).1 = 3
  /\ (getAdaptiveDepth endgame_board 4).1 = 5
  /\ (getAdaptiveDepth one_threat_board 4).1 = 5
  /\ (getAdaptiveDepth many_threats_board 4).1 = 6.
Proof.
  split; [|split; [|split]].
  - destruct (getAdaptiveDepth_rule opening_board 4) as (_ & Hopening & _).
    apply Hopening; reflexivity.
  - destruct (getAdaptiveDepth_rule endgame_board 4) as (_ & _ & Hendgame & _).
    apply Hendgame; reflexivity.
  - destruct (getAdaptiveDepth_rule one_threat_board 4) as (_ & _ & _ & Hone & _).
    apply Hone; reflexivity.
  - destruct (getAdaptiveDepth_rule many_threats_board 4) as (_ & _ & _ & _ & Hmany).
    apply Hmany. by vm_compute.
Defined.

(** ** Move ordering *)

Lemma StronglySorted_map {A B} (R : A -> A -> Prop) (R' : B -> B -> Prop)
  (P : A -> Prop) (f : A -> B) (l : list A) :
  (forall x y, P x -> P y -> R x y -> R' (f x) (f y)) ->
  Forall P l -> StronglySorted R l -> StronglySorted R' (map f l).
Proof.
  intros HR HP Hs. induction Hs as [|x l Hs IH Hall]; simpl; constructor.
  - apply IH. by inversion HP.
  - inversion HP as [|? ? Hx Hl]; subst. apply List.Forall_forall. intros y Hy.
    apply in_map_iff in Hy as (z & <- & Hz).
    rewrite List.Forall_forall in Hall, Hl. apply HR; auto.
Qed.

Lemma scored_moves_score b piece col score :
  In (col, score) (scored_moves b piece) -> score = column_score b piece col.
Proof.
  unfold scored_moves. intros (c & Heq & _)%in_map_iff. by inversion Heq.
Qed.

Lemma open_columns_NoDup b : NoDup (open_columns b).
Proof. apply NoDup_ListNoDup, List.NoDup_filter, seq_NoDup. Qed.

Lemma open_columns_In b col :
  In col (open_columns b) <-> (col < COLS)%nat /\ getNextOpenRow b col <> None.
Proof.
  unfold open_columns. rewrite filter_In, in_seq, bool_decide_eq_true.
  rewrite <- not_eq_None_Some. split; intros []; split; (lia || done).
Qed.

(** *** Insertion sort keeps equal scores in column order *)

Lemma insert_by_stable x acc :
  StronglySorted before_pair acc ->
  Forall (fun y => (y.1 < x.1)%nat) acc ->
  StronglySorted before_pair (insert_by x acc).
Proof.
  induction 1 as [|y acc Hs IH Hall]; intros Hlt; simpl.
  - repeat constructor.
  - inversion Hlt as [|? ? Hy Hacc]; subst.
    unfold goes_before. destruct (Z.gtb_spec x.2 y.2) as [Hgt|Hle].
    + constructor; [by constructor|]. constructor; [left; lia|].
      eapply Forall_impl; [exact Hall|]. unfold before_pair. simpl.
      intros z [Hz|[Hz _]]; left; lia.
    + constructor; [by apply IH|].
      eapply Permutation_Forall; [symmetry; apply insert_by_perm|].
      constructor; [|done]. unfold before_pair. lia.
Qed.

Lemma insertion_sort_stable l acc :
  StronglySorted before_pair acc ->
  StronglySorted lt (map fst l) ->
  Forall (fun y => Forall (fun x => (y.1 < x.1)%nat) l) acc ->
  StronglySorted before_pair (fold_left (fun acc x => insert_by x acc) l acc).
Proof.
  revert acc. induction l as [|x l IH]; intros acc Hacc Hl Hlt; simpl; [done|].
  inversion Hl as [|? ? Hl' Hx]; subst.
  apply IH; [|done|].
  - apply insert_by_stable; [done|].
    eapply Forall_impl; [exact Hlt|]. simpl. intros y Hy. by inversion Hy.
  - eapply Permutation_Forall; [symmetry; apply insert_by_perm|].
    constructor.
    + rewrite List.Forall_forall in Hx. apply List.Forall_forall.
      intros z Hz. apply Hx. by apply in_map.
    + eapply Forall_impl; [exact Hlt|]. simpl. intros y Hy. by inversion Hy.
Qed.

Lemma open_columns_ascending b : StronglySorted lt (open_columns b).
Proof.
  unfold open_columns. generalize 0%nat at 1. generalize COLS.
  induction n as [|n IH]; intros lo; simpl; [constructor|].
  destruct (bool_decide _); [|apply IH].
  constructor; [apply IH|]. apply List.Forall_forall.
  intros c [Hc%in_seq _]%filter_In. lia.
Qed.

Lemma StronglySorted_lookup {A} (R : A -> A -> Prop) (l : list A) i j a b :
  StronglySorted R l -> (i < j)%nat -> l !! i = Some a -> l !! j = Some b -> R a b.
Proof.
  intros Hs. revert i j. induction Hs as [|x l Hs IH Hall]; intros i j Hij Hi Hj;
    [done|].
  destruct j as [|j]; [lia|]. destruct i as [|i]; simpl in *.
  - inversion Hi; subst. rewrite List.Forall_forall in Hall. apply Hall.
    apply list_elem_of_In. by eapply list_elem_of_lookup_2.
  - eapply IH; [|done..]. lia.
Qed.

Lemma stable_sort_ties (b : board) (maximizingPlayer : bool) :
  ties_in_column_order b (side_piece maximizingPlayer)
    (getOptimizedMoves (H := stable_sort) b maximizingPlayer).1.
Proof.
  set (piece := side_piece maximizingPlayer).
  assert (StronglySorted (before_stably b piece)
            (getOptimizedMoves (H := stable_sort) b maximizingPlayer).1) as Hs.
  { rewrite getOptimizedMoves_eq. simpl. fold piece.
    eapply (StronglySorted_map before_pair _
              (fun p => p.2 = column_score b piece p.1)).
    - intros [c1 s1] [c2 s2]. unfold before_pair, before_stably. simpl.
      intros -> ->. done.
    - apply List.Forall_forall. intros [c s] Hin. simpl.
      apply scored_moves_score.
      eapply Permutation_in; [apply (std_sort_perm (StdSort := stable_sort))|done].
    - apply insertion_sort_stable; [constructor| |constructor].
      unfold scored_moves. rewrite map_map. simpl. rewrite map_id.
      apply open_columns_ascending. }
  intros i j ci cj Hij Hi Hj Htie.
  destruct (StronglySorted_lookup _ _ _ _ _ _ Hs Hij Hi Hj) as [Hlt|[_ Hlt]];
    [lia|done].
Qed.

(** C6.  For every board and side to move, [getOptimizedMoves] returns
    exactly the columns that are not full, each once, in descending order of
    the provisional score (1,000,000 for an immediate win, else
    [evaluateBoard] after the drop, plus 30 - |column - 3| * 10, plus 40
    when the cell under the drop holds the same side's piece), and columns
    of equal score appear in ascending column order. *)
Theorem getOptimizedMoves_ordering (b : board) (maximizingPlayer : bool) :
  let piece := side_piece maximizingPlayer in
  let moves := (getOptimizedMoves (H := stable_sort) b maximizingPlayer).1 in
  Permutation moves (open_columns b)
  /\ NoDup moves
  /\ (forall col, In col moves <-> (col < COLS)%nat /\ getNextOpenRow b col <> None)
  /\ StronglySorted
       (fun c1 c2 => column_score b piece c2 <= column_score b piece c1) moves
  /\ (forall col row, getNextOpenRow b col = Some row ->
        column_score b piece col
        = (if checkWin (dropPiece b col piece).2 piece then 1000000
           else evaluateBoard (dropPiece b col piece).2 piece)
          + (30 - Z.abs (Z.of_nat col - 3) * 10)
          + (if (row <? ROWS - 1)%nat && (cell b (row + 1) col ==c piece)
             then 40 else 0))
  /\ ties_in_column_order b piece moves.
Proof.
  intros piece moves.
  assert (Permutation moves (open_columns b)) as Hperm
    by apply getOptimizedMoves_perm.
  split; [done|]. split; [|split; [|split; [|split]]]; [| | | |apply stable_sort_ties].
  - apply NoDup_ListNoDup. eapply Permutation_NoDup; [symmetry; exact Hperm|].
    apply NoDup_ListNoDup, open_columns_NoDup.
  - intros col. rewrite <- open_columns_In.
    split; apply Permutation_in; [done|by symmetry].
  - subst moves. rewrite getOptimizedMoves_eq. simpl. fold piece.
    eapply (StronglySorted_map score_ge _
              (fun p => p.2 = column_score b piece p.1));
      [| |apply (std_sort_sorted (StdSort := stable_sort))].
    + intros [c1 s1] [c2 s2]. unfold score_ge. simpl. intros -> ->. done.
    + apply List.Forall_forall. intros [c s] Hin. simpl.
      apply scored_moves_score.
      eapply Permutation_in; [apply (std_sort_perm (StdSort := stable_sort))|done].
  - intros col row Hrow. unfold column_score, dropPiece. rewrite Hrow. done.
Qed.

(** ** The search on a full board *)

Lemma is_full_cell b r c :
  is_full b = true -> (r < ROWS)%nat -> (c < COLS)%nat -> cell b r c <> EMPTY.
Proof.
  unfold is_full. rewrite forallb_forall. intros Hfull Hr Hc.
  apply Ascii.eqb_neq, negb_true_iff. apply (Hfull (r, c)).
  apply in_prod_iff. split; apply in_seq; lia.
Qed.

Lemma is_full_no_empty b :
  is_full b = true -> count_cells (fun ch => ch ==c EMPTY) b = 0.
Proof.
  intros Hfull. rewrite count_cells_filter.
  unfold is_full in Hfull. rewrite forallb_forall in Hfull.
  induction all_cells as [|p l IH]; [done|]. simpl.
  rewrite (proj1 (negb_true_iff _) (Hfull p (or_introl eq_refl))).
  apply IH. intros q Hq. apply Hfull. by right.
Qed.

Lemma scan_open_full b col n :
  (forall r, (r < n)%nat -> cell b r col <> EMPTY) -> scan_open b col n = None.
Proof.
  induction n as [|n IH]; intros Hfull; simpl; [done|].
  rewrite (proj2 (Ascii.eqb_neq _ _) (Hfull n ltac:(lia))).
  apply IH. intros r Hr. apply Hfull. lia.
Qed.

Lemma is_full_no_open_column b : is_full b = true -> open_columns b = [].
Proof.
  intros Hfull. unfold open_columns.
  assert (forall col, In col (seq 0 COLS) ->
            bool_decide (is_Some (getNextOpenRow b col)) = false) as Hnone.
  { intros col Hcol%in_seq. apply bool_decide_eq_false_2.
    unfold getNextOpenRow. rewrite scan_open_full; [by intros [? ?]|].
    intros r Hr. apply is_full_cell; [done|done|lia]. }
  induction (seq 0 COLS) as [|col l IH]; [done|]. simpl.
  rewrite Hnone by (by left). apply IH. intros c Hc. apply Hnone. by right.
Qed.

Lemma evaluateWindow_full (c1 c2 c3 c4 piece : ascii) :
  c1 <> EMPTY -> c2 <> EMPTY -> c3 <> EMPTY -> c4 <> EMPTY ->
  (c1 ==c piece) && (c2 ==c piece) && (c3 ==c piece) && (c4 ==c piece) = false ->
  evaluateWindow c1 c2 c3 c4 piece = 0.
Proof.
  intros H1%Ascii.eqb_neq H2%Ascii.eqb_neq H3%Ascii.eqb_neq H4%Ascii.eqb_neq.
  unfold evaluateWindow, evaluateWindow_with. rewrite H1, H2, H3, H4.
  destruct (c1 ==c piece), (c2 ==c piece), (c3 ==c piece), (c4 ==c piece);
    simpl; (discriminate || reflexivity).
Qed.

(** On a full board without a line of [piece] no window scores. *)
Lemma window_score_full (b : board) (piece : ascii) (w : list (nat * nat)) :
  is_full b = true -> checkWin b piece = false -> In w all_windows ->
  window_score b piece w = 0.
Proof.
  intros Hfull Hwin Hin.
  assert (forall r c, (r <? ROWS)%nat && (c <? COLS)%nat = true ->
                      cell b r c <> EMPTY) as Hcell.
  { intros r c [Hr%Nat.ltb_lt Hc%Nat.ltb_lt]%andb_true_iff. by apply is_full_cell. }
  unfold checkWin in Hwin.
  cbv [any_in existsb seq ROWS COLS Nat.sub Nat.add] in Hwin.
  repeat match type of Hwin with
         | _ || _ = false =>
             let H := fresh "Hw" in
             apply orb_false_elim in Hwin as [H Hwin]
         end.
  repeat match goal with
         | H : _ || _ = false |- _ =>
             let H' := fresh "Hw" in
             apply orb_false_elim in H as [H' H]
         end.
  revert Hin.
  let ws := eval vm_compute in all_windows in change all_windows with ws.
  cbn [In]. intros Hin.
  repeat (destruct Hin as [<-|Hin]); [..|destruct Hin];
    cbn [window_score]; (apply evaluateWindow_full;
      [by apply Hcell..|assumption]).
Qed.

Lemma windows_total_full (b : board) (piece : ascii) :
  is_full b = true -> checkWin b piece = false -> windows_total b piece = 0.
Proof.
  intros Hfull Hwin. unfold windows_total.
  assert (Forall (fun x => 0 <= x <= 0) (map (window_score b piece) all_windows))
    as Hzero.
  { apply List.Forall_forall. intros x (w & <- & Hw)%in_map_iff.
    rewrite window_score_full by done. lia. }
  apply sum_list_range in Hzero. lia.
Qed.

(** C2, as the code has it: in classic mode, on a full board with no
    completed line and no cache entry for the call, [minimax] returns no
    column and the value of [evaluateBoard] for 'O' whenever the original
    depth is not negative (the clamp sets the depth to the zero empty cells
    and the depth check comes before the move list is looked at) or the
    depth is zero; the draw value 0 of the no-legal-moves branch is returned
    in the remaining case only.  Board and cache are left as they were.  On
    such a board no window scores, so the evaluation is 200 for each 'O' in
    the centre column plus 100 for each row with an 'O' in column 2 or 4. *)
Theorem minimax_full_board `{StdSort} (b : board) (memo : gmap string (Z * Z))
  (depth alpha beta : Z) (maximizingPlayer : bool) (original_depth : Z) :
  is_full b = true -> checkWin b PO = false -> checkWin b PX = false ->
  memo !! cache_key b depth maximizingPlayer = None ->
  minimax b memo depth alpha beta maximizingPlayer false original_depth
  = Some ((-1, if (0 <=? original_depth * 2) || (depth =? 0)
               then evaluateBoard b PO else 0), b, memo)
  /\ evaluateBoard b PO
     = 200 * pieces_in_column b PO 3 + 100 * rows_touching_centre b PO.
Proof.
  intros Hfull HwinO HwinX Hmiss. split.
  - unfold minimax. cbn [minimax_fuel].
    rewrite Hmiss, HwinO, HwinX, is_full_no_empty by done. cbn [negb andb].
    rewrite andb_true_r.
    destruct (0 <=? original_depth * 2); cbn [orb]; [done|].
    destruct (depth =? 0); [done|].
    rewrite getOptimizedMoves_eq. unfold scored_moves.
    rewrite is_full_no_open_column by done. cbn [map].
    by rewrite (Permutation_nil (Permutation_sym (std_sort_perm []))).
  - rewrite evaluateBoard_decomposed, windows_total_full by done. lia.
Qed.

Lemma minimax_full_board_witness :
  minimax (H := stable_sort) draw_board ∅ 4 INT_MIN INT_MAX true false 4
  = Some ((-1, evaluateBoard draw_board PO), draw_board, ∅).
Proof.
  exact (proj1 (minimax_full_board (H := stable_sort) draw_board ∅ 4 INT_MIN
                  INT_MAX true 4 eq_refl eq_refl eq_refl eq_refl)).
Defined.

(** C2 as stated fails: on a full board without a line the classic-mode
    search returns the evaluation of the board, here 1200, not 0. *)
Lemma minimax_full_board_not_zero :
  is_full draw_board = true
  /\ checkWin draw_board PO = false /\ checkWin draw_board PX = false
  /\ minimax (H := stable_sort) draw_board ∅ 4 INT_MIN INT_MAX true false 4
     = Some ((-1, 1200), draw_board, ∅)
  /\ (forall r, minimax (H := stable_sort) draw_board ∅ 4 INT_MIN INT_MAX
                  true false 4 = Some r -> r.1.1.2 <> 0).
Proof.
  assert (minimax (H := stable_sort) draw_board ∅ 4 INT_MIN INT_MAX true false 4
          = Some ((-1, 1200), draw_board, ∅)) as Hrun by (by vm_compute).
  split; [by vm_compute|]. split; [by vm_compute|]. split; [by vm_compute|].
  split; [exact Hrun|].
  intros r. rewrite Hrun. intros [= <-]. simpl. lia.
Qed.

(** ** The transposition cache *)

Section Cache.

Context `{StdSort}.

Lemma max_loop_returned child key depth original_depth beta cols b memo alpha
  bestCol bestScore col score b' memo' :
  max_loop child key depth original_depth beta cols b memo alpha bestCol bestScore
  = Some (Returned col score, b', memo') ->
  memo' !! key = Some (col, score).
Proof.
  revert b memo alpha bestCol bestScore.
  induction cols as [|c cols IH]; intros b memo alpha bestCol bestScore; simpl;
    [discriminate|].
  destruct (getNextOpenRow b c) as [row|]; [|discriminate].
  destruct (child _ memo alpha beta) as [[[s b1] memo1]|]; [|discriminate].
  destruct ((s >? bestScore) && (depth =? original_depth) && (s >? 900000)).
  - intros [= <- <- <- <-]. apply lookup_insert_eq.
  - destruct (Z.max alpha _ >=? beta); [discriminate|]. apply IH.
Qed.

Lemma min_loop_finished child alpha cols b memo beta bestCol bestScore e b' memo' :
  min_loop child alpha cols b memo beta bestCol bestScore = Some (e, b', memo') ->
  exists col score, e = Finished col score.
Proof.
  revert b memo beta bestCol bestScore.
  induction cols as [|c cols IH]; intros b memo beta bestCol bestScore; simpl.
  - intros [= <- <- <-]. eauto.
  - destruct (getNextOpenRow b c) as [row|]; [|discriminate].
    destruct (child _ memo alpha beta) as [[[s b1] memo1]|]; [|discriminate].
    destruct (Z.min beta _ <=? alpha); [intros [= <- <- <-]; eauto|]. apply IH.
Qed.

(** The four ways a call can end: served from the cache; a leaf, which
    leaves the cache alone and does not look at alpha or beta; an expanded
    node whose pair has been stored under the call's key; an expanded node
    that found the cache at its ceiling and discarded it. *)
Lemma minimax_fuel_outcome fuel b memo depth alpha beta maximizingPlayer
  isScoreAttack original_depth r b' memo' :
  minimax_fuel fuel b memo depth alpha beta maximizingPlayer isScoreAttack
               original_depth = Some (r, b', memo') ->
  let key := cache_key b depth maximizingPlayer in
  (memo !! key = Some r /\ memo' = memo)
  \/ (memo !! key = None /\ memo' = memo
      /\ forall alpha' beta',
           minimax_fuel fuel b memo depth alpha' beta' maximizingPlayer
                        isScoreAttack original_depth = Some (r, b', memo))
  \/ memo' !! key = Some r
  \/ memo' = ∅.
Proof.
  destruct fuel as [|fuel]; [discriminate|]. intros Hrun key. subst key. revert Hrun.
  cbn [minimax_fuel].
  destruct (memo !! cache_key b depth maximizingPlayer) as [hit|] eqn:Hmiss.
  { intros [= <- <- <-]. by left. }
  destruct (negb isScoreAttack && checkWin b PO) eqn:HwinO.
  { intros [= <- <- <-]. right; left. split; [done|]. split; [done|]. by intros. }
  destruct (negb isScoreAttack && checkWin b PX) eqn:HwinX.
  { intros [= <- <- <-]. right; left. split; [done|]. split; [done|]. by intros. }
  set (depth' := if (count_cells _ b <=? original_depth * 2) && negb isScoreAttack
                 then _ else depth).
  destruct (depth' =? 0) eqn:Hleaf.
  { intros [= <- <- <-]. right; left. split; [done|]. split; [done|]. by intros. }
  destruct (getOptimizedMoves b maximizingPlayer) as [valid_locs b1] eqn:Hmoves.
  destruct valid_locs as [|first rest].
  { intros [= <- <- <-]. right; left. split; [done|]. split; [done|]. by intros. }
  destruct maximizingPlayer.
  - destruct (max_loop _ _ _ _ _ _ _ _ _ _ _) as [[[e b2] memo2]|] eqn:Hloop;
      [|discriminate].
    destruct e as [col score|col score].
    + intros [= <- <- <-]. right; right; left.
      by eapply max_loop_returned.
    + intros [= <- <- <-]. right; right.
      destruct (Z.of_nat (size memo2) <? MAX_MEMORY_SIZE); [left|by right].
      apply lookup_insert_eq.
  - destruct (min_loop _ _ _ _ _ _ _ _) as [[[e b2] memo2]|] eqn:Hloop;
      [|discriminate].
    destruct (min_loop_finished _ _ _ _ _ _ _ _ _ _ _ Hloop) as (col & score & ->).
    intros [= <- <- <-]. right; right.
    destruct (Z.of_nat (size memo2) <? MAX_MEMORY_SIZE); [left|by right].
    apply lookup_insert_eq.
Qed.

Lemma minimax_hit b memo depth alpha beta maximizingPlayer isScoreAttack
  original_depth v :
  memo !! cache_key b depth maximizingPlayer = Some v ->
  minimax b memo depth alpha beta maximizingPlayer isScoreAttack original_depth
  = Some (v, b, memo).
Proof. intros Hhit. unfold minimax. cbn [minimax_fuel]. by rewrite Hhit. Qed.

End Cache.

(** C1, as the code has it: a call whose key is in the cache returns the
    stored pair and leaves the cache as it is; and a call that follows
    another with the same board, depth, side to move, mode and original
    depth (alpha and beta may differ) returns the identical pair, provided
    the first call did not end by discarding the cache.  Nothing is promised
    about agreement with the search run without the cache. *)
Theorem cache_hit_and_repeat `{StdSort} (b : board) (memo : gmap string (Z * Z))
  (depth alpha beta : Z) (maximizingPlayer isScoreAttack : bool)
  (original_depth : Z) (r : Z * Z) (b' : board) (memo' : gmap string (Z * Z)) :
  minimax b memo depth alpha beta maximizingPlayer isScoreAttack original_depth
  = Some (r, b', memo') ->
  (forall v, memo !! cache_key b depth maximizingPlayer = Some v ->
             r = v /\ memo' = memo)
  /\ (memo' <> ∅ ->
      forall alpha' beta',
        minimax b memo' depth alpha' beta' maximizingPlayer isScoreAttack
                original_depth = Some (r, b, memo')).
Proof.
  intros Hrun. split.
  - intros v Hhit. rewrite (minimax_hit _ _ _ _ _ _ _ _ _ Hhit) in Hrun.
    by inversion Hrun.
  - intros Hkept alpha' beta'.
    assert (b' = b) as ->.
    { destruct (minimax_fuel_restores (S (ROWS * COLS)) b memo depth alpha beta
                  maximizingPlayer isScoreAttack original_depth) as (r0 & m0 & Hr0).
      - pose proof (open_cells_bound b). lia.
      - unfold minimax in Hrun. rewrite Hr0 in Hrun. by inversion Hrun. }
    destruct (minimax_fuel_outcome _ _ _ _ _ _ _ _ _ _ _ _ Hrun)
      as [[Hhit ->]|[(Hmiss & -> & Hleaf)|[Hstored|Hcleared]]].
    + by apply minimax_hit.
    + apply Hleaf.
    + by apply minimax_hit.
    + done.
Qed.

Lemma cache_hit_and_repeat_witness :
  minimax (H := stable_sort) last_move_board
          {[ cache_key last_move_board 1 true := (0, 1200) ]}
          1 0 1 true false 1
  = Some ((0, 1200), last_move_board,
          {[ cache_key last_move_board 1 true := (0, 1200) ]}).
Proof.
  assert (minimax (H := stable_sort) last_move_board ∅
            1 INT_MIN INT_MAX true false 1
          = Some ((0, 1200), last_move_board,
                  {[ cache_key last_move_board 1 true := (0, 1200) ]})) as Hfirst
    by (vm_compute; reflexivity).
  apply (cache_hit_and_repeat (H := stable_sort) _ _ _ _ _ _ _ _ _ _ _ Hfirst).
  apply insert_non_empty.
Defined.

(** C1 as stated fails: started on an empty cache, the search with the
    cache returns (5, 1000) where the same search without it returns
    (5, 1100). *)
Lemma cache_changes_result :
  threats_on transposition_board = 0
  /\ (getAdaptiveDepth transposition_board 2).1 = 3
  /\ option_map (fun x => x.1.1)
       (minimax (H := stable_sort) transposition_board ∅
                3 INT_MIN INT_MAX true false 3) = Some (5, 1000)
  /\ minimax_nocache (H := stable_sort) transposition_board
                     3 INT_MIN INT_MAX true false 3 = Some (5, 1100)
  /\ option_map (fun x => x.1.1)
       (minimax (H := stable_sort) transposition_board ∅
                3 INT_MIN INT_MAX true false 3)
     <> minimax_nocache (H := stable_sort) transposition_board
                        3 INT_MIN INT_MAX true false 3.
Proof.
  assert (option_map (fun x => x.1.1)
            (minimax (H := stable_sort) transposition_board ∅
                     3 INT_MIN INT_MAX true false 3) = Some (5, 1000)) as Hcache
    by (by vm_compute).
  assert (minimax_nocache (H := stable_sort) transposition_board
            3 INT_MIN INT_MAX true false 3 = Some (5, 1100)) as Hplain
    by (by vm_compute).
  split; [by vm_compute|]. split; [by vm_compute|].
  split; [exact Hcache|]. split; [exact Hplain|].
  rewrite Hcache, Hplain. intros [=].
Qed.

(** ** The ceiling of the cache *)

(** On [forced_win_board] with original depth 5 the first move tried wins, and
    the forced-win return stores the pair whatever the size of the cache. *)
Lemma forced_win_store (memo : gmap string (Z * Z)) (alpha beta : Z) :
  memo !! cache_key forced_win_board 5 true = None ->
  memo !! cache_key (set_cell forced_win_board 2 3 PO) 4 false = None ->
  minimax (H := stable_sort) forced_win_board memo 5 alpha beta true false 5
  = Some ((3, 1000004), forced_win_board,
          <[cache_key forced_win_board 5 true := (3, 1000004)]> memo).
Proof.
  intros Hroot Hchild. unfold minimax.
  change (ROWS * COLS)%nat with (S 41). generalize 41%nat. intros n.
  cbn [minimax_fuel]. rewrite Hroot.
  replace (checkWin forced_win_board PO) with false by (by vm_compute).
  replace (checkWin forced_win_board PX) with false by (by vm_compute).
  replace (count_cells (fun ch => ch ==c EMPTY) forced_win_board) with 5
    by (by vm_compute).
  replace (getOptimizedMoves (H := stable_sort) forced_win_board true)
    with ([3; 6]%nat, forced_win_board) by (by vm_compute).
  change (5 <=? 5 * 2) with true. cbn [negb andb].
  change (5 =? 0) with false. cbn [max_loop].
  replace (getNextOpenRow forced_win_board 3) with (Some 2%nat) by (by vm_compute).
  change (5 - 1) with 4. rewrite Hchild.
  replace (checkWin (set_cell forced_win_board 2 3 PO) PO) with true
    by (by vm_compute).
  cbn [negb andb snd].
  rewrite set_cell_undo by (by vm_compute).
  change (1000000 + 4 >? INT_MIN) with true.
  change (1000000 + 4 >? 900000) with true.
  change (5 =? 5) with true. cbn [andb].
  reflexivity.
Qed.

(** There are caches of every size that hold neither of two given keys. *)
Lemma cache_of_size (n : nat) (k1 k2 : string) :
  exists memo : gmap string (Z * Z),
    size memo = n /\ memo !! k1 = None /\ memo !! k2 = None.
Proof.
  induction n as [|n (memo & Hsize & Hk1 & Hk2)].
  - exists ∅. by rewrite map_size_empty, !lookup_empty.
  - set (k := fresh ({[k1; k2]} ∪ dom memo : gset string)).
    assert (k ∉ ({[k1; k2]} ∪ dom memo : gset string)) as Hfresh by apply is_fresh.
    exists (<[k := (0, 0)]> memo). split; [|split].
    + rewrite map_size_insert_None; [by rewrite Hsize|].
      apply not_elem_of_dom. set_solver.
    + rewrite lookup_insert_ne; [done|]. set_solver.
    + rewrite lookup_insert_ne; [done|]. set_solver.
Qed.

(** The store at the end of [minimax] keeps the cache within the ceiling. *)
Lemma guarded_store_within_ceiling (memo : gmap string (Z * Z)) (key : string)
  (v : Z * Z) :
  Z.of_nat (size (if Z.of_nat (size memo) <? MAX_MEMORY_SIZE
                  then <[key := v]> memo else ∅)) <= MAX_MEMORY_SIZE.
Proof.
  destruct (Z.ltb_spec (Z.of_nat (size memo)) MAX_MEMORY_SIZE) as [Hlt|_].
  - rewrite map_size_insert. unfold MAX_MEMORY_SIZE in *.
    destruct (memo !! key); simpl; lia.
  - rewrite map_size_empty. unfold MAX_MEMORY_SIZE. lia.
Qed.

(** C5 fails on the forced-win return: it stores without looking at the
    size of the cache.  From a cache that holds exactly [MAX_MEMORY_SIZE]
    entries the call below returns (3, 1000004) and leaves
    [MAX_MEMORY_SIZE + 1] entries behind. *)
Theorem cache_ceiling_exceeded :
  exists memo memo' : gmap string (Z * Z),
    Z.of_nat (size memo) = MAX_MEMORY_SIZE
    /\ minimax (H := stable_sort) forced_win_board memo 5 INT_MIN INT_MAX
               true false 5 = Some ((3, 1000004), forced_win_board, memo')
    /\ Z.of_nat (size memo') = MAX_MEMORY_SIZE + 1
    /\ MAX_MEMORY_SIZE < Z.of_nat (size memo').
Proof.
  destruct (cache_of_size (Z.to_nat MAX_MEMORY_SIZE)
              (cache_key forced_win_board 5 true)
              (cache_key (set_cell forced_win_board 2 3 PO) 4 false))
    as (memo & Hsize & Hroot & Hchild).
  eexists memo, _.
  assert (Z.of_nat (size memo) = MAX_MEMORY_SIZE) as Hfull
    by (rewrite Hsize; apply Z2Nat.id; discriminate).
  split; [exact Hfull|]. split; [by apply forced_win_store|].
  rewrite map_size_insert_None by done. rewrite Nat2Z.inj_succ, Hfull.
  unfold MAX_MEMORY_SIZE. lia.
Qed.

(** * Further properties of the code *)

(** ** Values of a window *)

Lemma evaluateWindow_value_list (c1 c2 c3 c4 piece : ascii) :
  In (evaluateWindow c1 c2 c3 c4 piece) [1000000; 150; 60; 50; 0; -50; -500].
Proof.
  unfold evaluateWindow, evaluateWindow_with.
  destruct (c1 ==c EMPTY), (c4 ==c EMPTY), (c2 ==c EMPTY), (c3 ==c EMPTY);
    destruct (c1 ==c piece), (c2 ==c piece), (c3 ==c piece), (c4 ==c piece);
    simpl; tauto.
Qed.

(** X1.  Whatever the four cells and the piece, [evaluateWindow] returns
    one of seven values: 1000000, 150, 60, 50, 0, -50 or -500.  The 5000 and
    the -10000 of its source text are never returned. *)
Theorem evaluateWindow_values (c1 c2 c3 c4 piece : ascii) :
  In (evaluateWindow c1 c2 c3 c4 piece) [1000000; 150; 60; 50; 0; -50; -500].
Proof. apply evaluateWindow_value_list. Qed.

(** ** Rows and drops *)

Lemma scan_open_complete b col n row :
  (row < n)%nat -> cell b row col = EMPTY ->
  (forall r, (row < r)%nat -> (r < n)%nat -> cell b r col <> EMPTY) ->
  scan_open b col n = Some row.
Proof.
  induction n as [|n IH]; intros Hrow He Hbelow; [lia|]. simpl.
  destruct (decide (row = n)) as [->|Hne].
  - by rewrite (proj2 (Ascii.eqb_eq _ _) He).
  - rewrite (proj2 (Ascii.eqb_neq _ _) (Hbelow n ltac:(lia) ltac:(lia))).
    apply IH; [lia|done|]. intros r Hr1 Hr2. apply Hbelow; lia.
Qed.

(** X2.  [getNextOpenRow] returns a row exactly when that row is the
    lowest empty cell of the column (every cell below it is occupied), and it
    returns "no row" exactly when no cell of the column is empty. *)
Theorem getNextOpenRow_lowest_empty (b : board) (col : nat) :
  (forall row, getNextOpenRow b col = Some row <->
     (row < ROWS)%nat /\ cell b row col = EMPTY
     /\ forall r, (row < r)%nat -> (r < ROWS)%nat -> cell b r col <> EMPTY)
  /\ (getNextOpenRow b col = None <->
      forall r, (r < ROWS)%nat -> cell b r col <> EMPTY).
Proof.
  split.
  - intros row. split; [apply getNextOpenRow_spec|].
    intros (Hrow & He & Hbelow). by apply scan_open_complete.
  - split; [apply scan_open_none|apply scan_open_full].
Qed.

Lemma open_cells_place_exact b col row v :
  (col < COLS)%nat -> getNextOpenRow b col = Some row -> v <> EMPTY ->
  S (open_cells (set_cell b row col v)) = open_cells b.
Proof.
  intros Hcol (Hrow & He & _)%getNextOpenRow_spec Hv. unfold open_cells.
  assert (In (row, col) all_cells) as Hin
    by (apply in_prod_iff; split; apply in_seq; unfold ROWS, COLS in *; lia).
  assert (List.NoDup all_cells) as Hnd
    by (apply NoDup_ListNoDup, (bool_decide_unpack _); by vm_compute).
  assert (forall p, In p all_cells -> (p.2 < COLS)%nat) as Hcols
    by (intros [r c] [_ Hc%in_seq]%in_prod_iff; simpl; lia).
  induction all_cells as [|[r c] l IH]; [destruct Hin|].
  inversion Hnd as [|? ? Hnotin Hnd']; subst. cbn [List.filter fst snd].
  destruct Hin as [[= -> ->]|Hin].
  - rewrite cell_set_same, He by done.
    rewrite (proj2 (Ascii.eqb_neq _ _) Hv), (proj2 (Ascii.eqb_eq _ _) eq_refl).
    cbn [length]. f_equal. f_equal.
    apply List.filter_ext_in. intros [r' c'] Hin'. simpl.
    rewrite cell_set_other; [done|].
    intros [-> ->]%idx_inj; [done|done|]. apply (Hcols (r', c')). by right.
  - assert (idx row col <> idx r c) as Hne.
    { intros [-> ->]%idx_inj; [done|done|]. apply (Hcols (r, c)). by left. }
    rewrite cell_set_other by done.
    destruct (cell b r c ==c EMPTY); cbn [length];
      rewrite <- IH; auto; intros p Hp; apply Hcols; by right.
Qed.

(** X3.  In a column of the board, [dropPiece] fails and leaves the board
    as it is when the column has no empty cell; otherwise it succeeds, writes
    the player's piece in the lowest empty cell of the column, changes no
    other cell, keeps the size of the board and, for a piece other than the
    blank, leaves one empty cell fewer. *)
Theorem dropPiece_effect (b : board) (col : nat) (player : ascii) :
  (col < COLS)%nat ->
  match getNextOpenRow b col with
  | Some row =>
      dropPiece b col player = (true, set_cell b row col player)
      /\ cell (dropPiece b col player).2 row col = player
      /\ (forall r c, (c < COLS)%nat -> (r, c) <> (row, col) ->
            cell (dropPiece b col player).2 r c = cell b r c)
      /\ length (dropPiece b col player).2 = length b
      /\ (player <> EMPTY ->
          S (open_cells (dropPiece b col player).2) = open_cells b)
  | None => dropPiece b col player = (false, b)
  end.
Proof.
  intros Hcol. unfold dropPiece.
  destruct (getNextOpenRow b col) as [row|] eqn:Hrow; [|done].
  pose proof Hrow as (HrowR & He & _)%getNextOpenRow_spec. cbn [snd].
  split; [done|]. split; [by apply cell_set_same|]. split; [|split].
  - intros r c Hc Hne. apply cell_set_other.
    intros [-> ->]%idx_inj; [|done|done]. done.
  - apply length_insert.
  - intros Hp. by apply open_cells_place_exact.
Qed.

Lemma dropPiece_effect_witness :
  dropPiece initBoard 3 PX = (true, set_cell initBoard 5 3 PX).
Proof.
  pose proof (dropPiece_effect initBoard 3 PX ltac:(unfold COLS; lia)) as Heffect.
  change (getNextOpenRow initBoard 3) with (Some 5%nat) in Heffect.
  exact (proj1 Heffect).
Defined.

(** X4.  On a board where no piece floats, after a piece is dropped in a
    column the next open row of that column is the row above the one just
    filled, or none when the top row was filled; the next open row of every
    other column is unchanged. *)
Theorem dropPiece_next_row (b : board) (col : nat) (player : ascii) (row : nat) :
  gravity b -> (col < COLS)%nat -> player <> EMPTY ->
  getNextOpenRow b col = Some row ->
  getNextOpenRow (dropPiece b col player).2 col
  = (if (row =? 0)%nat then None else Some (row - 1)%nat)
  /\ forall c, (c < COLS)%nat -> c <> col ->
       getNextOpenRow (dropPiece b col player).2 c = getNextOpenRow b c.
Proof.
  intros Hg Hcol Hp Hrow. unfold dropPiece. rewrite Hrow. cbn [snd].
  pose proof Hrow as (HrowR & He & Hbelow)%getNextOpenRow_spec.
  pose proof (gravity_nothing_floats b Hg) as Hfloat.
  split.
  - destruct (Nat.eqb_spec row 0) as [->|Hpos].
    + apply scan_open_full. intros r Hr.
      destruct (decide (r = 0%nat)) as [->|Hr0].
      * by rewrite cell_set_same.
      * rewrite cell_set_other by (intros [? _]%idx_inj; lia). apply Hbelow; lia.
    + apply scan_open_complete; [lia| |].
      * rewrite cell_set_other by (intros [? _]%idx_inj; lia).
        apply (Hfloat row); [lia|done|done|done].
      * intros r Hr1 Hr2. destruct (decide (r = row)) as [->|Hne].
        -- by rewrite cell_set_same.
        -- rewrite cell_set_other by (intros [? _]%idx_inj; lia).
           apply Hbelow; lia.
  - intros c Hc Hne. unfold getNextOpenRow. generalize ROWS.
    induction n as [|n IH]; [done|]. simpl.
    rewrite cell_set_other by (intros [_ ?]%idx_inj; lia). by rewrite IH.
Qed.

Lemma dropPiece_next_row_witness :
  getNextOpenRow (dropPiece initBoard 3 PX).2 3 = Some 4%nat.
Proof.
  refine (proj1 (dropPiece_next_row initBoard 3 PX 5 gravity_initBoard _ _ _)).
  - unfold COLS. lia.
  - discriminate.
  - reflexivity.
Defined.

(** ** Playable cells *)

(** X5.  On a board where no piece floats, [isValidPlacement] accepts
    an empty cell of the board exactly when it is the cell [getNextOpenRow]
    returns for its column. *)
Theorem isValidPlacement_next_open_row (b : board) (r c : nat) :
  gravity b -> (r < ROWS)%nat -> (c < COLS)%nat -> cell b r c = EMPTY ->
  (isValidPlacement (Z.of_nat r) (Z.of_nat c) b = true
   <-> getNextOpenRow b c = Some r).
Proof.
  intros Hg Hr Hc He. unfold isValidPlacement.
  replace ((Z.of_nat r <? 0) || (Z.of_nat r >=? Z.of_nat ROWS)
           || (Z.of_nat c <? 0) || (Z.of_nat c >=? Z.of_nat COLS)) with false
    by (symmetry; repeat (apply orb_false_iff; split); lia).
  replace (Z.to_nat (Z.of_nat r + 1)) with (r + 1)%nat by lia.
  rewrite Nat2Z.id.
  destruct (Z.eqb_spec (Z.of_nat r) (Z.of_nat ROWS - 1)) as [Hlast|Hnot].
  - split; [intros _|done]. apply scan_open_complete; [done|done|]. intros; lia.
  - rewrite negb_true_iff, Ascii.eqb_neq. split.
    + intros Hbelow. apply scan_open_complete; [done|done|].
      intros r' Hr1 Hr2 He'.
      destruct (decide (r' = r + 1)%nat) as [->|Hfar]; [done|].
      apply Hbelow. apply (gravity_nothing_floats b Hg r'); [lia|done|done|done].
    + intros (_ & _ & Hbelow)%getNextOpenRow_spec. apply Hbelow; lia.
Qed.

Lemma isValidPlacement_next_open_row_witness :
  isValidPlacement 5 3 initBoard = true <-> getNextOpenRow initBoard 3 = Some 5%nat.
Proof.
  apply (isValidPlacement_next_open_row initBoard 5 3 gravity_initBoard).
  - unfold ROWS. lia.
  - unfold COLS. lia.
  - reflexivity.
Defined.

(** ** Lines of four *)

Lemma owns_four b p r1 c1 r2 c2 r3 c3 r4 c4 :
  owns b p [(r1, c1); (r2, c2); (r3, c3); (r4, c4)]
  = four b p r1 c1 r2 c2 r3 c3 r4 c4.
Proof.
  unfold owns, four. cbn [forallb fst snd].
  destruct (cell b r1 c1 ==c p), (cell b r2 c2 ==c p), (cell b r3 c3 ==c p),
    (cell b r4 c4 ==c p); reflexivity.
Qed.

Lemma four_rev b p r1 c1 r2 c2 r3 c3 r4 c4 :
  four b p r1 c1 r2 c2 r3 c3 r4 c4 = four b p r4 c4 r3 c3 r2 c2 r1 c1.
Proof.
  unfold four.
  destruct (cell b r1 c1 ==c p), (cell b r2 c2 ==c p), (cell b r3 c3 ==c p),
    (cell b r4 c4 ==c p); reflexivity.
Qed.

Ltac split_orb_false H :=
  repeat match type of H with
         | _ || _ = false =>
             let H' := fresh "Hw" in apply orb_false_elim in H as [H' H]
         end;
  repeat match goal with
         | H0 : _ || _ = false |- _ =>
             let H' := fresh "Hw" in apply orb_false_elim in H0 as [H' H0]
         end.

Ltac rewrite_all_false :=
  repeat match goal with
         | H : four _ _ _ _ _ _ _ _ _ _ = false |- _ => rewrite H; clear H
         end.

Lemma checkWin_owns (b : board) (p : ascii) :
  checkWin b p = existsb (owns b p) all_windows.
Proof.
  destruct (checkWin b p) eqn:Hwin; destruct (existsb (owns b p) all_windows) eqn:Hex;
    try reflexivity; exfalso.
  - revert Hex. let ws := eval vm_compute in all_windows in change all_windows with ws.
    cbn [existsb]. rewrite !owns_four. intros Hex.
    split_orb_false Hex.
    revert Hwin. unfold checkWin.
    cbv [any_in existsb seq ROWS COLS Nat.sub Nat.add].
    rewrite_all_false. discriminate.
  - unfold checkWin in Hwin.
    cbv [any_in existsb seq ROWS COLS Nat.sub Nat.add] in Hwin.
    split_orb_false Hwin.
    revert Hex. let ws := eval vm_compute in all_windows in change all_windows with ws.
    cbn [existsb]. rewrite !owns_four.
    rewrite_all_false. discriminate.
Qed.

Lemma checkWin_window (b : board) (p : ascii) :
  checkWin b p = true <->
  exists w, In w all_windows /\ forall r c, In (r, c) w -> cell b r c = p.
Proof.
  rewrite checkWin_owns, existsb_exists. unfold owns.
  split; intros (w & Hin & Hw); exists w; split; try done.
  - intros r c Hrc. rewrite forallb_forall in Hw.
    apply Ascii.eqb_eq, (Hw (r, c) Hrc).
  - apply forallb_forall. intros [r c] Hrc. apply Ascii.eqb_eq. by apply Hw.
Qed.

(** X6.  [checkWin] answers true exactly when the four cells of one of
    the 69 lines of the board all hold the piece. *)
Theorem checkWin_iff_window (b : board) (p : ascii) :
  checkWin b p = true <->
  exists w, In w all_windows /\ forall r c, In (r, c) w -> cell b r c = p.
Proof. apply checkWin_window. Qed.

Lemma all_windows_on_board w r c :
  In w all_windows -> In (r, c) w -> (r < ROWS)%nat /\ (c < COLS)%nat.
Proof.
  assert (forallb (fun w => forallb (fun q : nat * nat =>
            (q.1 <? ROWS)%nat && (q.2 <? COLS)%nat) w) all_windows = true) as Hall
    by (by vm_compute).
  rewrite forallb_forall in Hall. intros Hw Hrc.
  specialize (Hall w Hw). rewrite forallb_forall in Hall.
  apply (Hall (r, c)) in Hrc. cbn [fst snd] in Hrc.
  apply andb_true_iff in Hrc as [Hr%Nat.ltb_lt Hc%Nat.ltb_lt]. done.
Qed.

Lemma cell_set_cases b r c v r' c' :
  (c < COLS)%nat -> (c' < COLS)%nat ->
  cell (set_cell b r c v) r' c' = cell b r' c'
  \/ ((r', c') = (r, c) /\ cell (set_cell b r c v) r' c' = v).
Proof.
  intros Hc Hc'. destruct (decide (idx r c = idx r' c')) as [Heq|Hne].
  - apply idx_inj in Heq as [-> ->]; [|done..].
    unfold cell, set_cell.
    destruct (decide (idx r' c' < length b)%nat) as [Hlt|Hge].
    + right. split; [done|]. by rewrite list_lookup_insert_eq.
    + left. by rewrite list_insert_ge by lia.
  - left. by apply cell_set_other.
Qed.

Lemma checkWin_set_cell (b : board) (r c : nat) (p q : ascii) :
  (c < COLS)%nat -> p <> q ->
  (checkWin (set_cell b r c p) q = true -> checkWin b q = true)
  /\ (cell b r c = EMPTY -> q <> EMPTY ->
      checkWin b q = true -> checkWin (set_cell b r c p) q = true).
Proof.
  intros Hc Hpq. rewrite !checkWin_window. split.
  - intros (w & Hw & Hown). exists w. split; [done|]. intros r' c' Hrc.
    destruct (all_windows_on_board w r' c' Hw Hrc) as [_ Hc'].
    specialize (Hown r' c' Hrc).
    destruct (cell_set_cases b r c p r' c' Hc Hc') as [Heq|[_ Heq]];
      rewrite Heq in Hown; [done|]. by destruct Hpq.
  - intros He Hq (w & Hw & Hown). exists w. split; [done|]. intros r' c' Hrc.
    destruct (all_windows_on_board w r' c' Hw Hrc) as [_ Hc'].
    specialize (Hown r' c' Hrc).
    destruct (cell_set_cases b r c p r' c' Hc Hc') as [Heq|[[= -> ->] _]];
      [by rewrite Heq|]. congruence.
Qed.

(** X7.  Writing a piece in a cell never completes a line of a different
    piece; and when the cell was empty, it never breaks a line that a piece
    other than the blank already had. *)
Theorem checkWin_after_move (b : board) (r c : nat) (p q : ascii) :
  (c < COLS)%nat -> p <> q ->
  (checkWin (set_cell b r c p) q = true -> checkWin b q = true)
  /\ (cell b r c = EMPTY -> q <> EMPTY ->
      checkWin b q = true -> checkWin (set_cell b r c p) q = true).
Proof. apply checkWin_set_cell. Qed.

Lemma checkWin_after_move_witness :
  (checkWin (set_cell forced_win_board 2 3 PO) PX = true ->
   checkWin forced_win_board PX = true)
  /\ (cell forced_win_board 2 3 = EMPTY -> PX <> EMPTY ->
      checkWin forced_win_board PX = true ->
      checkWin (set_cell forced_win_board 2 3 PO) PX = true).
Proof.
  apply (checkWin_after_move forced_win_board 2 3 PO PX).
  - unfold COLS. lia.
  - discriminate.
Defined.

(** ** The final score *)

Lemma for_sum (lo hi : nat) (f : nat -> Z -> Z) (g : nat -> Z) (s : Z) :
  (forall i s, f i s = s + g i) ->
  for_ lo hi f s = s + sum_list (map g (seq lo (hi - lo))).
Proof.
  intros Hf. unfold for_. revert s.
  induction (seq lo (hi - lo)) as [|i l IH]; intros s; simpl; [lia|].
  rewrite IH, Hf. fold (sum_list (map g l)). lia.
Qed.

Lemma streak_line7 (g : nat -> bool) (s : Z) :
  (let '(streak, score) :=
     for_ 0 7 (fun c '(streak, score) =>
       if g c then (streak + 1, score)
       else (0, if streak >=? 4 then score + (streak - 3) else score)) (0, s) in
   if streak >=? 4 then score + (streak - 3) else score)
  = s + (Z.b2z (g 0%nat && g 1%nat && g 2%nat && g 3%nat)
         + Z.b2z (g 1%nat && g 2%nat && g 3%nat && g 4%nat)
         + Z.b2z (g 2%nat && g 3%nat && g 4%nat && g 5%nat)
         + Z.b2z (g 3%nat && g 4%nat && g 5%nat && g 6%nat)).
Proof.
  unfold for_. cbn [seq fold_left Nat.sub].
  destruct (g 0%nat), (g 1%nat), (g 2%nat), (g 3%nat), (g 4%nat), (g 5%nat),
    (g 6%nat); simpl; lia.
Qed.

Lemma streak_line6 (g : nat -> bool) (s : Z) :
  (let '(streak, score) :=
     for_ 0 6 (fun c '(streak, score) =>
       if g c then (streak + 1, score)
       else (0, if streak >=? 4 then score + (streak - 3) else score)) (0, s) in
   if streak >=? 4 then score + (streak - 3) else score)
  = s + (Z.b2z (g 0%nat && g 1%nat && g 2%nat && g 3%nat)
         + Z.b2z (g 1%nat && g 2%nat && g 3%nat && g 4%nat)
         + Z.b2z (g 2%nat && g 3%nat && g 4%nat && g 5%nat)).
Proof.
  unfold for_. cbn [seq fold_left Nat.sub].
  destruct (g 0%nat), (g 1%nat), (g 2%nat), (g 3%nat), (g 4%nat), (g 5%nat);
    simpl; lia.
Qed.

Lemma calculateFinalScore_count (b : board) (player : ascii) :
  calculateFinalScore b player
  = Z.of_nat (length (List.filter (owns b player) all_windows)).
Proof.
  unfold calculateFinalScore. cbv zeta.
  rewrite (for_sum 3 ROWS _ (fun r => sum_list (map (fun c =>
    Z.b2z (four b player (r-3) (c+3) (r-2) (c+2) (r-1) (c+1) r c))
    (seq 0 (COLS - 3 - 0))))).
  2:{ intros r s. apply for_sum. intros c s'. rewrite bonus_step.
      rewrite (four_rev b player r c). lia. }
  rewrite (for_sum 0 (ROWS - 3) _ (fun r => sum_list (map (fun c =>
    Z.b2z (four b player r c (r+1) (c+1) (r+2) (c+2) (r+3) (c+3)))
    (seq 0 (COLS - 3 - 0))))).
  2:{ intros r s. apply for_sum. intros c s'. rewrite bonus_step. lia. }
  rewrite (for_sum 0 COLS _ (fun c =>
    Z.b2z (four b player 0 c 1 c 2 c 3 c) + Z.b2z (four b player 1 c 2 c 3 c 4 c)
    + Z.b2z (four b player 2 c 3 c 4 c 5 c))).
  2:{ intros c s. apply (streak_line6 (fun r => cell b r c ==c player)). }
  rewrite (for_sum 0 ROWS _ (fun r =>
    Z.b2z (four b player r 0 r 1 r 2 r 3) + Z.b2z (four b player r 1 r 2 r 3 r 4)
    + Z.b2z (four b player r 2 r 3 r 4 r 5) + Z.b2z (four b player r 3 r 4 r 5 r 6))).
  2:{ intros r s. apply (streak_line7 (fun c => cell b r c ==c player)). }
  let ws := eval vm_compute in all_windows in change all_windows with ws.
  rewrite !Zlength_filter_cons. cbn [List.filter length Z.of_nat].
  rewrite !owns_four.
  cbv [seq map sum_list fold_right ROWS COLS Nat.sub Nat.add].
  generalize (four b player). intros f.
  generalize Z.b2z. intros b2z. lia.
Qed.

Lemma filter_nonempty_existsb {A} (p : A -> bool) (l : list A) :
  0 < Z.of_nat (length (List.filter p l)) <-> existsb p l = true.
Proof.
  induction l as [|x l IH]; simpl; [split; [lia|discriminate]|].
  destruct (p x); simpl; [split; [done|lia]|]. exact IH.
Qed.

(** X8.  [calculateFinalScore] is the number of lines of four cells
    that the player holds, overlapping lines counted once each: a run of
    [n >= 4] in a row or a column counts [n - 3].  The score lies between 0
    and 69, and it is positive exactly when [checkWin] answers true. *)
Theorem calculateFinalScore_counts_lines (b : board) (player : ascii) :
  calculateFinalScore b player
  = Z.of_nat (length (List.filter (owns b player) all_windows))
  /\ 0 <= calculateFinalScore b player <= 69
  /\ (0 < calculateFinalScore b player <-> checkWin b player = true).
Proof.
  split; [apply calculateFinalScore_count|]. rewrite calculateFinalScore_count.
  split.
  - pose proof (filter_count_range (owns b player) all_windows) as Hrange.
    rewrite all_windows_count in Hrange. lia.
  - rewrite checkWin_owns. apply filter_nonempty_existsb.
Qed.

(** ** The evaluation of a board *)

Lemma evaluateWindow_without_four (c1 c2 c3 c4 piece : ascii) :
  (c1 ==c piece) && (c2 ==c piece) && (c3 ==c piece) && (c4 ==c piece) = false ->
  -500 <= evaluateWindow c1 c2 c3 c4 piece <= 150.
Proof.
  unfold evaluateWindow, evaluateWindow_with.
  destruct (c1 ==c EMPTY), (c4 ==c EMPTY), (c2 ==c EMPTY), (c3 ==c EMPTY);
    destruct (c1 ==c piece), (c2 ==c piece), (c3 ==c piece), (c4 ==c piece);
    simpl; intros; (discriminate || lia).
Qed.

Lemma window_score_bounds (b : board) (piece : ascii) (w : list (nat * nat)) :
  In w all_windows ->
  -500 <= window_score b piece w <= 1000000
  /\ (checkWin b piece = false -> window_score b piece w <= 150).
Proof.
  intros Hw.
  destruct w as [|[r1 k1] [|[r2 k2] [|[r3 k3] [|[r4 k4] [|? ?]]]]];
    cbn [window_score]; try (split; [lia|intros; lia]).
  split.
  - pose proof (evaluateWindow_value_list (cell b r1 k1) (cell b r2 k2) (cell b r3 k3)
                  (cell b r4 k4) piece) as Hv.
    cbn [In] in Hv. lia.
  - rewrite checkWin_owns. intros Hnone.
    assert (owns b piece [(r1, k1); (r2, k2); (r3, k3); (r4, k4)] = false) as Hown.
    { destruct (owns b piece _) eqn:Hown; [|done].
      rewrite <- Hnone. symmetry. apply existsb_exists. eauto. }
    rewrite owns_four in Hown. by apply evaluateWindow_without_four.
Qed.

Lemma sum_list_upper (hi : Z) (l : list Z) :
  Forall (fun x => x <= hi) l -> sum_list l <= Z.of_nat (length l) * hi.
Proof.
  induction 1 as [|x l Hx Hl IH]; [simpl; lia|].
  cbn [sum_list fold_right length] in *. fold (sum_list l) in *. lia.
Qed.

Lemma evaluateBoard_bounded (b : board) (piece : ascii) :
  -34500 <= evaluateBoard b piece <= 69001800
  /\ INT_MIN < evaluateBoard b piece < INT_MAX
  /\ (checkWin b piece = false -> evaluateBoard b piece <= 12150).
Proof.
  rewrite evaluateBoard_decomposed.
  pose proof (filter_count_range (fun r => cell b r 3 ==c piece) (seq 0 ROWS)) as Hc.
  pose proof (filter_count_range
                (fun r => (cell b r 2 ==c piece) || (cell b r 4 ==c piece))
                (seq 0 ROWS)) as Hr.
  rewrite length_seq in Hc, Hr. change (Z.of_nat ROWS) with 6 in Hc, Hr.
  fold (pieces_in_column b piece 3) in Hc. fold (rows_touching_centre b piece) in Hr.
  assert (Z.of_nat (length (map (window_score b piece) all_windows)) * -500
          <= windows_total b piece
          <= Z.of_nat (length (map (window_score b piece) all_windows)) * 1000000)
    as Hwin.
  { apply sum_list_range, List.Forall_forall. intros x (w & <- & Hw)%in_map_iff.
    apply window_score_bounds, Hw. }
  rewrite length_map, all_windows_count in Hwin.
  unfold INT_MIN, INT_MAX. split; [lia|]. split; [lia|].
  intros Hnone.
  assert (windows_total b piece
          <= Z.of_nat (length (map (window_score b piece) all_windows)) * 150)
    as Hcap.
  { apply sum_list_upper, List.Forall_forall. intros x (w & <- & Hw)%in_map_iff.
    by apply window_score_bounds. }
  rewrite length_map, all_windows_count in Hcap. lia.
Qed.

(** X9.  [evaluateBoard] lies between -34500 and 69001800, strictly
    inside the range of [int]; on a board where the piece has no line of four
    it is at most 12150. *)
Theorem evaluateBoard_bounds (b : board) (piece : ascii) :
  -34500 <= evaluateBoard b piece <= 69001800
  /\ INT_MIN < evaluateBoard b piece < INT_MAX
  /\ (checkWin b piece = false -> evaluateBoard b piece <= 12150).
Proof. apply evaluateBoard_bounded. Qed.

(** ** The candidate columns *)

Lemma no_open_column_is_full b : open_columns b = [] -> is_full b = true.
Proof.
  intros Hnone. unfold is_full. apply forallb_forall.
  intros [r c] [Hr%in_seq Hc%in_seq]%in_prod_iff. cbn [fst snd].
  apply negb_true_iff, Ascii.eqb_neq.
  destruct (getNextOpenRow b c) as [row|] eqn:Hrow.
  - assert (In c (open_columns b)) as Hin
      by (apply open_columns_In; split; [lia|by rewrite Hrow]).
    rewrite Hnone in Hin. destruct Hin.
  - apply (scan_open_none b c ROWS Hrow). lia.
Qed.

Lemma column_score_win (b : board) (piece : ascii) (col : nat) :
  (col < COLS)%nat -> is_Some (getNextOpenRow b col) ->
  (wins_by_playing b piece col = true -> 1000000 <= column_score b piece col)
  /\ (wins_by_playing b piece col = false -> column_score b piece col <= 12220).
Proof.
  intros Hcol [row Hrow]. unfold wins_by_playing, column_score, dropPiece.
  rewrite Hrow. unfold provisional_score.
  assert (0 <= 30 - Z.abs (Z.of_nat col - 3) * 10 <= 30) as Hcentre
    by (unfold COLS in Hcol; lia).
  destruct (checkWin (set_cell b row col piece) piece) eqn:Hwin.
  - split; [intros _|discriminate].
    destruct ((row <? ROWS - 1)%nat && _); lia.
  - split; [discriminate|intros _].
    pose proof (evaluateBoard_bounded (set_cell b row col piece) piece)
      as (_ & _ & Hcap). specialize (Hcap Hwin).
    destruct ((row <? ROWS - 1)%nat && _); lia.
Qed.

(** X10.  [getOptimizedMoves] returns no column exactly when the board
    is full, and never more than [COLS] columns. *)
Theorem getOptimizedMoves_empty_iff_full `{StdSort} (b : board)
  (maximizingPlayer : bool) :
  ((getOptimizedMoves b maximizingPlayer).1 = [] <-> is_full b = true)
  /\ (length (getOptimizedMoves b maximizingPlayer).1 <= COLS)%nat.
Proof.
  pose proof (getOptimizedMoves_perm b maximizingPlayer) as Hperm.
  split; [split|].
  - intros Hnil. rewrite Hnil in Hperm.
    apply no_open_column_is_full. by apply Permutation_nil.
  - intros Hfull. apply is_full_no_open_column in Hfull. rewrite Hfull in Hperm.
    by apply Permutation_nil, Permutation_sym.
  - rewrite (Permutation_length Hperm). unfold open_columns.
    etransitivity; [apply List.filter_length_le|]. by rewrite length_seq.
Qed.

(** X11.  When the side to move can complete a line in some column, the
    first column that [getOptimizedMoves] returns completes a line, whatever
    order [std::sort] gives to equal scores. *)
Theorem getOptimizedMoves_win_first `{StdSort} (b : board)
  (maximizingPlayer : bool) (col : nat) :
  (col < COLS)%nat ->
  wins_by_playing b (side_piece maximizingPlayer) col = true ->
  exists first rest,
    (getOptimizedMoves b maximizingPlayer).1 = first :: rest
    /\ wins_by_playing b (side_piece maximizingPlayer) first = true.
Proof.
  intros Hcol Hwin. set (piece := side_piece maximizingPlayer) in *.
  assert (is_Some (getNextOpenRow b col)) as Hopen.
  { unfold wins_by_playing, dropPiece in Hwin.
    destruct (getNextOpenRow b col); [eauto|discriminate]. }
  pose proof (getOptimizedMoves_perm b maximizingPlayer) as Hperm.
  assert (In col (getOptimizedMoves b maximizingPlayer).1) as Hin.
  { eapply Permutation_in; [symmetry; exact Hperm|].
    apply open_columns_In. split; [done|]. by apply not_eq_None_Some. }
  assert (StronglySorted
            (fun c1 c2 => column_score b piece c2 <= column_score b piece c1)
            (getOptimizedMoves b maximizingPlayer).1) as Hsorted.
  { rewrite getOptimizedMoves_eq. cbn [fst]. fold piece.
    eapply (StronglySorted_map score_ge _
              (fun p => p.2 = column_score b piece p.1));
      [| |apply std_sort_sorted].
    - intros [c1 s1] [c2 s2]. unfold score_ge. simpl. intros -> ->. done.
    - apply List.Forall_forall. intros [c s] Hcs. simpl.
      apply scored_moves_score. eapply Permutation_in; [apply std_sort_perm|done]. }
  destruct (getOptimizedMoves b maximizingPlayer).1 as [|first rest] eqn:Hmoves;
    [destruct Hin|].
  exists first, rest. split; [done|].
  assert (In first (open_columns b)) as Hfirst
    by (eapply Permutation_in; [exact Hperm|by left]).
  apply open_columns_In in Hfirst as [Hfirst_col Hfirst_open].
  apply not_eq_None_Some in Hfirst_open.
  destruct (wins_by_playing b piece first) eqn:Hfw; [done|]. exfalso.
  pose proof (proj2 (column_score_win b piece first Hfirst_col Hfirst_open) Hfw).
  pose proof (proj1 (column_score_win b piece col Hcol Hopen) Hwin).
  destruct Hin as [->|Hin]; [congruence|].
  inversion Hsorted as [|? ? _ Hall]; subst.
  rewrite List.Forall_forall in Hall. specialize (Hall col Hin). simpl in Hall. lia.
Qed.

Lemma getOptimizedMoves_win_first_witness :
  exists first rest,
    (getOptimizedMoves (H := stable_sort) forced_win_board true).1 = first :: rest
    /\ wins_by_playing forced_win_board PO first = true.
Proof.
  apply (getOptimizedMoves_win_first (H := stable_sort) forced_win_board true 3).
  - unfold COLS. lia.
  - reflexivity.
Defined.

(** ** Cache keys *)

Lemma getBoardHash_cells (b : board) :
  length b = (ROWS * COLS)%nat -> getBoardHash b = string_of_list_ascii b.
Proof.
  intros Hlen.
  do 42 (destruct b as [|? b]; [discriminate|]).
  destruct b; [reflexivity|discriminate].
Qed.

Lemma string_app_inj (s1 s2 t1 t2 : string) :
  String.length s1 = String.length s2 -> s1 +:+ t1 = s2 +:+ t2 ->
  s1 = s2 /\ t1 = t2.
Proof.
  revert s2. induction s1 as [|a s1 IH]; intros [|a2 s2]; simpl;
    try discriminate; [done|].
  intros [= Hlen] [= -> Happ]. destruct (IH s2 Hlen Happ) as [-> ->]. done.
Qed.

Lemma string_app_length (s t : string) :
  String.length (s +:+ t) = (String.length s + String.length t)%nat.
Proof. induction s as [|a s IH]; simpl; [done|]. by rewrite IH. Qed.

Lemma string_of_list_ascii_length (l : list ascii) :
  String.length (string_of_list_ascii l) = length l.
Proof. induction l as [|a l IH]; simpl; [done|]. by rewrite IH. Qed.

Lemma cache_key_inj (b b' : board) (d d' : Z) (m m' : bool) :
  length b = (ROWS * COLS)%nat -> length b' = (ROWS * COLS)%nat ->
  cache_key b d m = cache_key b' d' m' -> b = b' /\ d = d' /\ m = m'.
Proof.
  intros Hb Hb'. unfold cache_key. rewrite !getBoardHash_cells by done.
  intros Hkey. apply string_app_inj in Hkey as [Hboard Hrest].
  2:{ by rewrite !string_of_list_ascii_length, Hb, Hb'. }
  assert (b = b') as ->.
  { rewrite <- (list_ascii_of_string_of_list_ascii b),
      <- (list_ascii_of_string_of_list_ascii b'). by rewrite Hboard. }
  split; [done|].
  assert (String.length (pretty d) = String.length (pretty d')) as Hlen.
  { apply (f_equal String.length) in Hrest. rewrite !string_app_length in Hrest.
    destruct m, m'; simpl in Hrest; lia. }
  apply string_app_inj in Hrest as [Hd Hm]; [|done].
  split; [by apply (inj pretty)|]. by destruct m, m'.
Qed.

(** X12.  Two positions with boards of [ROWS * COLS] cells have the same
    cache key only if the boards, the depths and the sides to move are the
    same: a cache entry is never read for another position. *)
Theorem cache_key_injective (b b' : board) (d d' : Z) (m m' : bool) :
  length b = (ROWS * COLS)%nat -> length b' = (ROWS * COLS)%nat ->
  cache_key b d m = cache_key b' d' m' -> b = b' /\ d = d' /\ m = m'.
Proof. apply cache_key_inj. Qed.

Lemma cache_key_injective_witness :
  initBoard = initBoard /\ 4 = 4 /\ true = true.
Proof.
  apply (cache_key_injective initBoard initBoard 4 4 true true); reflexivity.
Defined.

(** ** Columns returned by the search *)

Lemma cache_sound_empty : cache_sound ∅.
Proof. intros b d m v _ Hlook. by rewrite lookup_empty in Hlook. Qed.

Lemma cache_sound_insert memo b d m v :
  cache_sound memo -> length b = (ROWS * COLS)%nat -> legal_column b v.1 ->
  cache_sound (<[cache_key b d m := v]> memo).
Proof.
  intros Hsound Hlen Hlegal b0 d0 m0 v0 Hlen0 Hlook.
  destruct (decide (cache_key b d m = cache_key b0 d0 m0)) as [Heq|Hne].
  - rewrite <- Heq, lookup_insert_eq in Hlook. inversion Hlook; subst.
    apply cache_key_inj in Heq as (-> & _ & _); done.
  - rewrite lookup_insert_ne in Hlook by done. by eapply Hsound.
Qed.

Lemma legal_column_of_nat b col :
  (col < COLS)%nat -> is_Some (getNextOpenRow b col) ->
  legal_column b (Z.of_nat col).
Proof.
  intros Hcol Hopen. unfold legal_column. rewrite Nat2Z.id.
  split; [lia|]. split; [done|]. by apply not_eq_None_Some.
Qed.

Section Legal.

Context `{StdSort}.

Lemma max_loop_sound child depth original_depth n beta cols b d e b' memo' :
  child_sound child n -> (open_cells b <= n)%nat ->
  length b = (ROWS * COLS)%nat ->
  (forall col, In col cols -> (col < COLS)%nat /\ is_Some (getNextOpenRow b col)) ->
  forall memo alpha bestCol bestScore,
  cache_sound memo -> legal_column b bestCol ->
  max_loop child (cache_key b d true) depth original_depth beta cols b memo
           alpha bestCol bestScore = Some (e, b', memo') ->
  b' = b /\ cache_sound memo'
  /\ match e with
     | Returned col _ | Finished col _ => legal_column b col
     end.
Proof.
  intros Hchild Hn Hlen.
  induction cols as [|col cols IH]; intros Hopen memo alpha bestCol bestScore
    Hsound Hbest; simpl.
  - intros [= <- <- <-]. done.
  - destruct (Hopen col (or_introl eq_refl)) as [Hcol [row Hrow]]. rewrite Hrow.
    destruct (child _ memo alpha beta) as [[[score b1] memo1]|] eqn:Hcall;
      [|discriminate].
    apply Hchild in Hcall as [-> Hsound1]; [| |by unfold set_cell; rewrite length_insert|done].
    2:{ eapply Nat.lt_le_trans; [by apply open_cells_place|done]. }
    pose proof Hrow as (_ & He & _)%getNextOpenRow_spec.
    rewrite set_cell_undo by done.
    assert (legal_column b (if score >? bestScore then Z.of_nat col else bestCol))
      as Hbest'.
    { destruct (score >? bestScore); [|done]. apply legal_column_of_nat; eauto. }
    destruct ((score >? bestScore) && (depth =? original_depth) && (score >? 900000)).
    + intros [= <- <- <-]. split; [done|]. split; [|done].
      by apply cache_sound_insert.
    + destruct (Z.max alpha _ >=? beta).
      * intros [= <- <- <-]. done.
      * apply IH; [|done|done]. intros c Hc. apply Hopen. by right.
Qed.

Lemma min_loop_sound child n alpha cols b e b' memo' :
  child_sound child n -> (open_cells b <= n)%nat ->
  length b = (ROWS * COLS)%nat ->
  (forall col, In col cols -> (col < COLS)%nat /\ is_Some (getNextOpenRow b col)) ->
  forall memo beta bestCol bestScore,
  cache_sound memo -> legal_column b bestCol ->
  min_loop child alpha cols b memo beta bestCol bestScore = Some (e, b', memo') ->
  b' = b /\ cache_sound memo'
  /\ match e with
     | Returned col _ | Finished col _ => legal_column b col
     end.
Proof.
  intros Hchild Hn Hlen.
  induction cols as [|col cols IH]; intros Hopen memo beta bestCol bestScore
    Hsound Hbest; simpl.
  - intros [= <- <- <-]. done.
  - destruct (Hopen col (or_introl eq_refl)) as [Hcol [row Hrow]]. rewrite Hrow.
    destruct (child _ memo alpha beta) as [[[score b1] memo1]|] eqn:Hcall;
      [|discriminate].
    apply Hchild in Hcall as [-> Hsound1]; [| |by unfold set_cell; rewrite length_insert|done].
    2:{ eapply Nat.lt_le_trans; [by apply open_cells_place|done]. }
    pose proof Hrow as (_ & He & _)%getNextOpenRow_spec.
    rewrite set_cell_undo by done.
    assert (legal_column b (if score <? bestScore then Z.of_nat col else bestCol))
      as Hbest'.
    { destruct (score <? bestScore); [|done]. apply legal_column_of_nat; eauto. }
    destruct (Z.min beta _ <=? alpha).
    + intros [= <- <- <-]. done.
    + apply IH; [|done|done]. intros c Hc. apply Hopen. by right.
Qed.

Lemma minimax_fuel_sound fuel :
  forall b memo depth alpha beta maximizingPlayer isScoreAttack original_depth
         r b' memo',
  (open_cells b < fuel)%nat -> length b = (ROWS * COLS)%nat -> cache_sound memo ->
  minimax_fuel fuel b memo depth alpha beta maximizingPlayer isScoreAttack
               original_depth = Some (r, b', memo') ->
  b' = b /\ cache_sound memo' /\ (r.1 = -1 \/ legal_column b r.1).
Proof.
  induction fuel as [|fuel IH];
    intros b memo depth alpha beta mx sa od r b' memo' Hfuel Hlen Hsound; [lia|].
  cbn [minimax_fuel].
  destruct (memo !! cache_key b depth mx) as [hit|] eqn:Hlook.
  { intros [= <- <- <-]. split; [done|]. split; [done|]. right. by eapply Hsound. }
  destruct (negb sa && checkWin b PO).
  { intros [= <- <- <-]. auto. }
  destruct (negb sa && checkWin b PX).
  { intros [= <- <- <-]. auto. }
  set (depth' := if (count_cells _ b <=? od * 2) && negb sa then _ else depth).
  destruct (depth' =? 0).
  { intros [= <- <- <-]. auto. }
  pose proof (getOptimizedMoves_open b mx) as Hopen.
  rewrite getOptimizedMoves_eq in *. cbn [fst] in Hopen.
  destruct (map fst _) as [|first rest] eqn:Hlocs.
  { intros [= <- <- <-]. auto. }
  assert (legal_column b (Z.of_nat first)) as Hfirst.
  { destruct (Hopen first (or_introl eq_refl)). by apply legal_column_of_nat. }
  assert (forall side, child_sound (fun b memo alpha beta =>
     match minimax_fuel fuel b memo (depth' - 1) alpha beta side sa od with
     | Some (r, b, memo) => Some (r.2, b, memo)
     | None => None
     end) fuel) as Hchild.
  { intros side b0 memo0 alpha0 beta0 score b1 memo1 Hb0 Hlen0 Hsound0.
    destruct (minimax_fuel fuel b0 memo0 (depth' - 1) alpha0 beta0 side sa od)
      as [[[r0 b2] memo2]|] eqn:Hcall; [|discriminate].
    intros [= <- <- <-].
    destruct (IH _ _ _ _ _ _ _ _ _ _ _ Hb0 Hlen0 Hsound0 Hcall) as (-> & ? & _).
    done. }
  destruct mx.
  - destruct (max_loop _ _ _ _ _ _ _ _ _ _ _) as [[[e b2] memo2]|] eqn:Hloop;
      [|discriminate].
    eapply (max_loop_sound _ depth' od fuel) in Hloop
      as (-> & Hsound2 & Hcol); [|apply (Hchild false)|lia|done..].
    destruct e as [col score|col score]; intros [= <- <- <-]; cbn [fst].
    + auto.
    + split; [done|]. split; [|auto].
      destruct (Z.of_nat (size memo2) <? MAX_MEMORY_SIZE);
        [by apply cache_sound_insert|apply cache_sound_empty].
  - destruct (min_loop _ _ _ _ _ _ _ _) as [[[e b2] memo2]|] eqn:Hloop;
      [|discriminate].
    eapply (min_loop_sound _ fuel) in Hloop
      as (-> & Hsound2 & Hcol); [|apply (Hchild true)|lia|done..].
    destruct e as [col score|col score]; intros [= <- <- <-]; cbn [fst].
    + auto.
    + split; [done|]. split; [|auto].
      destruct (Z.of_nat (size memo2) <? MAX_MEMORY_SIZE);
        [by apply cache_sound_insert|apply cache_sound_empty].
Qed.

Lemma minimax_sound b memo depth alpha beta maximizingPlayer isScoreAttack
  original_depth r b' memo' :
  length b = (ROWS * COLS)%nat -> cache_sound memo ->
  minimax b memo depth alpha beta maximizingPlayer isScoreAttack original_depth
  = Some (r, b', memo') ->
  b' = b /\ cache_sound memo' /\ (r.1 = -1 \/ legal_column b r.1).
Proof.
  intros Hlen Hsound. apply minimax_fuel_sound; [|done..].
  pose proof (open_cells_bound b). lia.
Qed.

(** *** The size of the cache *)

Lemma max_loop_size child key depth original_depth beta cols :
  (forall b memo alpha beta score b' memo',
     child b memo alpha beta = Some (score, b', memo') ->
     Z.of_nat (size memo') <= Z.max (Z.of_nat (size memo)) MAX_MEMORY_SIZE) ->
  forall b memo alpha bestCol bestScore col score b' memo',
  max_loop child key depth original_depth beta cols b memo alpha bestCol bestScore
  = Some (Returned col score, b', memo') ->
  Z.of_nat (size memo') <= Z.max (Z.of_nat (size memo)) MAX_MEMORY_SIZE + 1.
Proof.
  intros Hchild.
  induction cols as [|c cols IH]; intros b memo alpha bestCol bestScore col score
    b' memo'; simpl; [discriminate|].
  destruct (getNextOpenRow b c) as [row|]; [|discriminate].
  destruct (child _ memo alpha beta) as [[[s b1] memo1]|] eqn:Hcall; [|discriminate].
  apply Hchild in Hcall.
  destruct ((s >? bestScore) && (depth =? original_depth) && (s >? 900000)).
  - intros [= <- <- <- <-]. rewrite map_size_insert.
    destruct (memo1 !! key); simpl; lia.
  - destruct (Z.max alpha _ >=? beta); [discriminate|].
    intros Hrest%IH. lia.
Qed.

Lemma minimax_fuel_size fuel :
  forall b memo depth alpha beta maximizingPlayer isScoreAttack original_depth
         r b' memo',
  minimax_fuel fuel b memo depth alpha beta maximizingPlayer isScoreAttack
               original_depth = Some (r, b', memo') ->
  Z.of_nat (size memo')
  <= Z.max (Z.of_nat (size memo)) MAX_MEMORY_SIZE
     + (if maximizingPlayer then 1 else 0).
Proof.
  induction fuel as [|fuel IH];
    intros b memo depth alpha beta mx sa od r b' memo'; [discriminate|].
  cbn [minimax_fuel].
  destruct (memo !! cache_key b depth mx) as [hit|].
  { intros [= <- <- <-]. destruct mx; lia. }
  destruct (negb sa && checkWin b PO).
  { intros [= <- <- <-]. destruct mx; lia. }
  destruct (negb sa && checkWin b PX).
  { intros [= <- <- <-]. destruct mx; lia. }
  set (depth' := if (count_cells _ b <=? od * 2) && negb sa then _ else depth).
  destruct (depth' =? 0).
  { intros [= <- <- <-]. destruct mx; lia. }
  destruct (getOptimizedMoves b mx) as [valid_locs b1].
  destruct valid_locs as [|first rest].
  { intros [= <- <- <-]. destruct mx; lia. }
  assert (forall memo2 key v,
    Z.of_nat (size (if Z.of_nat (size memo2) <? MAX_MEMORY_SIZE
                    then <[key := v]> memo2 else ∅ : gmap string (Z * Z)))
    <= MAX_MEMORY_SIZE) as Hguard.
  { intros memo2 key v.
    destruct (Z.ltb_spec (Z.of_nat (size memo2)) MAX_MEMORY_SIZE) as [Hlt|_].
    - rewrite map_size_insert. destruct (memo2 !! key); simpl; lia.
    - rewrite map_size_empty. unfold MAX_MEMORY_SIZE. lia. }
  destruct mx.
  - destruct (max_loop _ _ _ _ _ _ _ _ _ _ _) as [[[e b2] memo2]|] eqn:Hloop;
      [|discriminate].
    destruct e as [col score|col score]; intros [= <- <- <-].
    + eapply max_loop_size in Hloop; [done|].
      intros b0 memo0 alpha0 beta0 s0 b3 memo3.
      destruct (minimax_fuel fuel b0 memo0 (depth' - 1) alpha0 beta0 false sa od)
        as [[[r0 b4] memo4]|] eqn:Hcall; [|discriminate].
      intros [= <- <- <-]. apply IH in Hcall. lia.
    + specialize (Hguard memo2 (cache_key b depth true) (col, score)). lia.
  - destruct (min_loop _ _ _ _ _ _ _ _) as [[[e b2] memo2]|] eqn:Hloop;
      [|discriminate].
    destruct (min_loop_finished _ _ _ _ _ _ _ _ _ _ _ Hloop) as (col & score & ->).
    intros [= <- <- <-].
    specialize (Hguard memo2 (cache_key b depth false) (col, score)). lia.
Qed.

End Legal.

(** X13.  Started on a board of [ROWS * COLS] cells with a cache whose
    entries name legal columns, [minimax] returns, the board is as it was,
    the entries of the cache still name legal columns, and the column it
    returns is -1 or a column of the board that is not full. *)
Theorem minimax_returns_legal_column `{StdSort} (b : board)
  (memo : gmap string (Z * Z)) (depth alpha beta : Z)
  (maximizingPlayer isScoreAttack : bool) (original_depth : Z) :
  length b = (ROWS * COLS)%nat -> cache_sound memo ->
  exists r memo',
    minimax b memo depth alpha beta maximizingPlayer isScoreAttack
            original_depth = Some (r, b, memo')
    /\ cache_sound memo' /\ (r.1 = -1 \/ legal_column b r.1).
Proof.
  intros Hlen Hsound.
  destruct (minimax_fuel_restores (S (ROWS * COLS)) b memo depth alpha beta
              maximizingPlayer isScoreAttack original_depth)
    as (r & memo' & Hrun); [pose proof (open_cells_bound b); lia|].
  exists r, memo'. split; [done|].
  by destruct (minimax_sound _ _ _ _ _ _ _ _ _ _ _ Hlen Hsound Hrun) as (_ & ? & ?).
Qed.

Lemma minimax_returns_legal_column_witness :
  exists r memo',
    minimax (H := stable_sort) last_move_board ∅ 1 INT_MIN INT_MAX true false 1
    = Some (r, last_move_board, memo')
    /\ cache_sound memo' /\ (r.1 = -1 \/ legal_column last_move_board r.1).
Proof.
  exact (minimax_returns_legal_column (H := stable_sort) last_move_board ∅
           1 INT_MIN INT_MAX true false 1 eq_refl cache_sound_empty).
Defined.

(** X14.  [minimax] returns, and the cache then holds at most
    [MAX_MEMORY_SIZE] entries, or as many as it held before when that is
    more, plus one entry when the maximizing player is to move. *)
Theorem cache_size_after_search `{StdSort} (b : board)
  (memo : gmap string (Z * Z)) (depth alpha beta : Z)
  (maximizingPlayer isScoreAttack : bool) (original_depth : Z) :
  exists r memo',
    minimax b memo depth alpha beta maximizingPlayer isScoreAttack
            original_depth = Some (r, b, memo')
    /\ Z.of_nat (size memo')
       <= Z.max (Z.of_nat (size memo)) MAX_MEMORY_SIZE
          + (if maximizingPlayer then 1 else 0).
Proof.
  destruct (minimax_fuel_restores (S (ROWS * COLS)) b memo depth alpha beta
              maximizingPlayer isScoreAttack original_depth)
    as (r & memo' & Hrun); [pose proof (open_cells_bound b); lia|].
  exists r, memo'. split; [done|]. by eapply minimax_fuel_size.
Qed.

(** ** The computer's turn *)

Lemma getAdaptiveDepth_board (b : board) (base_depth : Z) :
  (getAdaptiveDepth b base_depth).2 = b.
Proof.
  unfold getAdaptiveDepth.
  pose proof (countThreats_board b PO) as HbO.
  destruct (countThreats b PO) as [threatsO b1]. simpl in HbO. subst.
  pose proof (countThreats_board b PX) as HbX.
  destruct (countThreats b PX) as [threatsX b2]. simpl in HbX. subst.
  repeat case_match; reflexivity.
Qed.

Lemma wins_by_playing_row b piece col row :
  getNextOpenRow b col = Some row ->
  wins_by_playing b piece col = checkWin (set_cell b row col piece) piece.
Proof. intros Hrow. unfold wins_by_playing, dropPiece. by rewrite Hrow. Qed.

Lemma wins_by_playing_full b piece col :
  getNextOpenRow b col = None -> wins_by_playing b piece col = false.
Proof. intros Hrow. unfold wins_by_playing, dropPiece. by rewrite Hrow. Qed.

(** No column of [cols] wins or blocks at once: the loop runs to its end and
    the copy is the board again. *)
Lemma immediate_move_none cols b isScoreAttack targetCol :
  (isScoreAttack = true \/
   forall col, In col cols ->
     wins_by_playing b PO col = false /\ wins_by_playing b PX col = false) ->
  immediate_move cols b isScoreAttack targetCol = (targetCol, b).
Proof.
  intros Hnone. induction cols as [|col cols IH]; simpl; [done|].
  assert (isScoreAttack = true \/
          forall c, In c cols ->
            wins_by_playing b PO c = false /\ wins_by_playing b PX c = false)
    as Hrest by (destruct Hnone as [?|Hn]; [by left|right; intros; apply Hn; by right]).
  destruct (getNextOpenRow b col) as [row|] eqn:Hrow; [|by apply IH].
  pose proof Hrow as (_ & He & _)%getNextOpenRow_spec.
  assert (checkWin (set_cell b row col PO) PO && negb isScoreAttack = false
          /\ checkWin (set_cell b row col PX) PX && negb isScoreAttack = false)
    as [HO HX].
  { destruct Hnone as [->|Hn]; [by rewrite !andb_false_r|].
    destruct (Hn col (or_introl eq_refl)) as [HwO HwX].
    rewrite (wins_by_playing_row b PO col row Hrow) in HwO.
    rewrite (wins_by_playing_row b PX col row Hrow) in HwX.
    by rewrite HwO, HwX. }
  rewrite HO, set_cell_undo, HX, set_cell_undo by done. by apply IH.
Qed.

(** The loop stops at the first column where either side completes a line. *)
Lemma immediate_move_first pre col post b targetCol :
  (forall c, In c pre ->
     wins_by_playing b PO c = false /\ wins_by_playing b PX c = false) ->
  wins_by_playing b PO col || wins_by_playing b PX col = true ->
  (immediate_move (pre ++ col :: post) b false targetCol).1 = Z.of_nat col.
Proof.
  intros Hpre Hwin. induction pre as [|c pre IH]; simpl.
  - destruct (getNextOpenRow b col) as [row|] eqn:Hrow.
    + rewrite (wins_by_playing_row b PO col row Hrow),
        (wins_by_playing_row b PX col row Hrow) in Hwin.
      pose proof Hrow as (_ & He & _)%getNextOpenRow_spec.
      rewrite !andb_true_r.
      destruct (checkWin (set_cell b row col PO) PO); [done|].
      rewrite set_cell_undo by done. simpl in Hwin. by rewrite Hwin.
    + by rewrite (wins_by_playing_full b PO col Hrow),
        (wins_by_playing_full b PX col Hrow) in Hwin.
  - destruct (Hpre c (or_introl eq_refl)) as [HwO HwX].
    destruct (getNextOpenRow b c) as [row|] eqn:Hrow.
    + rewrite (wins_by_playing_row b PO c row Hrow) in HwO.
      rewrite (wins_by_playing_row b PX c row Hrow) in HwX.
      pose proof Hrow as (_ & He & _)%getNextOpenRow_spec.
      rewrite HwO. cbn [andb]. rewrite set_cell_undo by done.
      rewrite HwX. cbn [andb]. rewrite set_cell_undo by done.
      apply IH. intros c' Hc'. apply Hpre. by right.
    + apply IH. intros c' Hc'. apply Hpre. by right.
Qed.

Lemma immediate_move_legal cols b isScoreAttack t b' :
  (forall col, In col cols -> (col < COLS)%nat) ->
  immediate_move cols b isScoreAttack (-1) = (t, b') ->
  (t = -1 /\ b' = b) \/ legal_column b t.
Proof.
  intros Hcols. induction cols as [|col cols IH]; simpl.
  - intros [= <- <-]. by left.
  - assert (forall c, In c cols -> (c < COLS)%nat) as Hrest
      by (intros; apply Hcols; by right).
    destruct (getNextOpenRow b col) as [row|] eqn:Hrow; [|by apply IH].
    pose proof Hrow as (_ & He & _)%getNextOpenRow_spec.
    assert (legal_column b (Z.of_nat col)) as Hlegal.
    { apply legal_column_of_nat; [apply Hcols; by left|by rewrite Hrow]. }
    destruct (checkWin (set_cell b row col PO) PO && negb isScoreAttack).
    { intros [= <- <-]. by right. }
    rewrite set_cell_undo by done.
    destruct (checkWin (set_cell b row col PX) PX && negb isScoreAttack).
    { intros [= <- <-]. by right. }
    rewrite set_cell_undo by done. by apply IH.
Qed.

Lemma first_open_column_legal cols b :
  (forall col, In col cols -> (col < COLS)%nat) ->
  (exists col, In col cols /\ is_Some (getNextOpenRow b col)) ->
  legal_column b (first_open_column cols b (-1)).
Proof.
  intros Hcols (col & Hin & Hopen). induction cols as [|k cols IH]; [destruct Hin|].
  simpl. destruct (getNextOpenRow b k) as [row|] eqn:Hrow.
  - apply legal_column_of_nat; [apply Hcols; by left|by rewrite Hrow].
  - destruct Hin as [->|Hin]; [rewrite Hrow in Hopen; by destruct Hopen|].
    apply IH; [intros; apply Hcols; by right|done].
Qed.

Lemma not_full_open_column b :
  is_full b = false -> exists col, In col (seq 0 COLS) /\ is_Some (getNextOpenRow b col).
Proof.
  intros Hfull. destruct (open_columns b) as [|col cols] eqn:Hopen.
  - apply no_open_column_is_full in Hopen. congruence.
  - assert (In col (open_columns b)) as Hin by (rewrite Hopen; by left).
    apply open_columns_In in Hin as [Hcol Hsome]. exists col.
    split; [apply in_seq; lia|]. by apply not_eq_None_Some.
Qed.

Section Turn.

Context `{StdSort}.

Lemma chooseMove_legal (b : board) (memo : gmap string (Z * Z))
  (aiDepth : Z) (isScoreAttack : bool) :
  length b = (ROWS * COLS)%nat -> cache_sound memo -> is_full b = false ->
  exists col memo',
    chooseMove b memo aiDepth isScoreAttack = Some (col, b, memo')
    /\ legal_column b col /\ cache_sound memo'.
Proof.
  intros Hlen Hsound Hfull. unfold chooseMove.
  pose proof (getAdaptiveDepth_board b aiDepth) as Hb.
  destruct (getAdaptiveDepth b aiDepth) as [adaptive_depth b0]. simpl in Hb. subst b0.
  destruct (immediate_move (seq 0 COLS) b isScoreAttack (-1)) as [t b1] eqn:Hpre.
  assert (forall col, In col (seq 0 COLS) -> (col < COLS)%nat) as Hcols
    by (intros col Hc%in_seq; lia).
  apply (immediate_move_legal _ _ _ _ _ Hcols) in Hpre as [[-> ->]|Hlegal].
  - rewrite Z.eqb_refl.
    destruct (minimax_fuel_restores (S (ROWS * COLS)) b memo adaptive_depth INT_MIN
                INT_MAX true isScoreAttack adaptive_depth) as (r & memo' & Hrun).
    { pose proof (open_cells_bound b). lia. }
    fold (minimax b memo adaptive_depth INT_MIN INT_MAX true isScoreAttack
                  adaptive_depth) in Hrun.
    rewrite Hrun.
    destruct (minimax_sound _ _ _ _ _ _ _ _ _ _ _ Hlen Hsound Hrun)
      as (_ & Hsound' & Hcol).
    eexists _, memo'. split; [reflexivity|]. split; [|done].
    destruct (Z.eqb_spec r.1 (-1)) as [Hnone|Hsome].
    + rewrite Hnone. apply first_open_column_legal; [done|].
      by apply not_full_open_column.
    + by destruct Hcol.
  - assert ((t =? -1) = false) as Ht
      by (apply Z.eqb_neq; destruct Hlegal; lia).
    rewrite Ht. cbv beta iota zeta. rewrite Ht.
    exists t, memo. split; [reflexivity|]. split; assumption.
Qed.

Lemma chooseMove_immediate (b : board) (memo : gmap string (Z * Z))
  (aiDepth : Z) (col : nat) :
  (col < COLS)%nat ->
  wins_by_playing b PO col || wins_by_playing b PX col = true ->
  (forall c, (c < col)%nat ->
     wins_by_playing b PO c = false /\ wins_by_playing b PX c = false) ->
  chooseMove b memo aiDepth false = Some (Z.of_nat col, b, memo).
Proof.
  intros Hcol Hwin Hbefore. unfold chooseMove.
  pose proof (getAdaptiveDepth_board b aiDepth) as Hb.
  destruct (getAdaptiveDepth b aiDepth) as [adaptive_depth b0]. simpl in Hb. subst b0.
  assert (seq 0 COLS = seq 0 col ++ col :: seq (S col) (COLS - S col)) as Hsplit.
  { replace COLS with (col + S (COLS - S col))%nat at 1 by lia.
    by rewrite seq_app. }
  pose proof (immediate_move_first (seq 0 col) col (seq (S col) (COLS - S col))
                b (-1)) as Hfirst.
  rewrite <- Hsplit in Hfirst.
  destruct (immediate_move (seq 0 COLS) b false (-1)) as [t b1].
  cbn [fst] in Hfirst. rewrite Hfirst; [|intros c Hc%in_seq; apply Hbefore; lia|done].
  assert ((Z.of_nat col =? -1) = false) as Hcol' by (apply Z.eqb_neq; lia).
  rewrite Hcol'. cbv beta iota zeta. by rewrite Hcol'.
Qed.

End Turn.

(** X16.  On a board of [ROWS * COLS] cells that is not full, with a
    cache whose entries name legal columns, the computer's turn in [main]
    chooses a column of the board that is not full, so the [dropPiece] that
    follows succeeds; the board is as it was and the entries of the cache
    still name legal columns. *)
Theorem chooseMove_legal_column `{StdSort} (b : board)
  (memo : gmap string (Z * Z)) (aiDepth : Z) (isScoreAttack : bool) :
  length b = (ROWS * COLS)%nat -> cache_sound memo -> is_full b = false ->
  exists col memo',
    chooseMove b memo aiDepth isScoreAttack = Some (col, b, memo')
    /\ legal_column b col /\ cache_sound memo'
    /\ (dropPiece b (Z.to_nat col) PO).1 = true.
Proof.
  intros Hlen Hsound Hfull.
  destruct (chooseMove_legal b memo aiDepth isScoreAttack Hlen Hsound Hfull)
    as (col & memo' & Hrun & Hlegal & Hsound').
  exists col, memo'. repeat (split; [done|]).
  destruct Hlegal as (_ & _ & Hopen). unfold dropPiece.
  by destruct (getNextOpenRow b (Z.to_nat col)).
Qed.

Lemma chooseMove_legal_column_witness :
  exists col memo',
    chooseMove (H := stable_sort) last_move_board ∅ 2 false
    = Some (col, last_move_board, memo')
    /\ legal_column last_move_board col /\ cache_sound memo'
    /\ (dropPiece last_move_board (Z.to_nat col) PO).1 = true.
Proof.
  exact (chooseMove_legal_column (H := stable_sort) last_move_board ∅ 2 false
           eq_refl cache_sound_empty eq_refl).
Defined.

(** X17.  In classic mode, when a piece of 'O' or of 'X' dropped in a
    column completes a line, the computer plays the leftmost such column
    without searching: the cache is not touched, and a block further left is
    preferred to a win further right. *)
Theorem chooseMove_takes_first_immediate `{StdSort} (b : board)
  (memo : gmap string (Z * Z)) (aiDepth : Z) (col : nat) :
  (col < COLS)%nat ->
  wins_by_playing b PO col || wins_by_playing b PX col = true ->
  (forall c, (c < col)%nat ->
     wins_by_playing b PO c = false /\ wins_by_playing b PX c = false) ->
  chooseMove b memo aiDepth false = Some (Z.of_nat col, b, memo).
Proof. apply chooseMove_immediate. Qed.

Lemma chooseMove_takes_first_immediate_witness :
  wins_by_playing block_before_win_board PO 6 = true
  /\ chooseMove (H := stable_sort) block_before_win_board ∅ 4 false
     = Some (1, block_before_win_board, ∅).
Proof.
  split; [reflexivity|].
  apply (chooseMove_takes_first_immediate (H := stable_sort)
           block_before_win_board ∅ 4 1).
  - unfold COLS. lia.
  - reflexivity.
  - intros c Hc. assert (c = 0%nat) as -> by lia. split; reflexivity.
Defined.

(** X15.  [getAdaptiveDepth] leaves the board as it was, and the depth
    it returns lies between the smaller of the base depth and 3 and the
    larger of the base depth plus 2 and 3. *)
Theorem getAdaptiveDepth_restores_board (b : board) (base_depth : Z) :
  (getAdaptiveDepth b base_depth).2 = b
  /\ Z.min base_depth 3 <= (getAdaptiveDepth b base_depth).1
     <= Z.max (base_depth + 2) 3.
Proof.
  split; [apply getAdaptiveDepth_board|].
  unfold getAdaptiveDepth.
  destruct (countThreats b PO) as [threatsO b1].
  destruct (countThreats b1 PX) as [threatsX b2].
  repeat case_match; cbn [fst]; lia.
Qed.

(** ** A column that is not on the board *)

Lemma offset_idx r col : offset r (Z.of_nat col) = Z.of_nat (idx r col).
Proof. unfold offset, idx. lia. Qed.

Lemma in_array_idx r col :
  (r < ROWS)%nat -> (col < COLS)%nat -> in_array (Z.of_nat (idx r col)) = true.
Proof.
  intros Hr Hc. unfold in_array, idx, ROWS, COLS in *.
  apply andb_true_iff. split; [apply Z.leb_le|apply Z.ltb_lt]; lia.
Qed.

Lemma read_int_on_board outside b r col :
  (r < ROWS)%nat -> (col < COLS)%nat ->
  read_int outside b r (Z.of_nat col) = cell b r col.
Proof.
  intros Hr Hc. unfold read_int. cbv zeta.
  rewrite offset_idx, in_array_idx by done. by rewrite Nat2Z.id.
Qed.

Lemma scan_open_int_on_board outside b col n :
  (n <= ROWS)%nat -> (col < COLS)%nat ->
  scan_open_int outside b (Z.of_nat col) n = scan_open b col n.
Proof.
  intros Hn Hc. induction n as [|n IH]; [done|]. cbn [scan_open_int scan_open].
  rewrite read_int_on_board by (done || lia). rewrite IH by lia. done.
Qed.

Lemma dropPiece_int_on_board outside b col player :
  (col < COLS)%nat ->
  dropPiece_int outside b (Z.of_nat col) player = Some (dropPiece b col player).
Proof.
  intros Hc. unfold dropPiece_int, dropPiece, getNextOpenRow_int, getNextOpenRow.
  rewrite scan_open_int_on_board by done.
  destruct (scan_open b col ROWS) as [row|] eqn:Hrow; [|done].
  apply scan_open_spec in Hrow as (Hr & _). cbv zeta.
  rewrite offset_idx, in_array_idx by done. by rewrite Nat2Z.id.
Qed.

Lemma scan_open_int_spec outside b col n row :
  scan_open_int outside b col n = Some row ->
  (row < n)%nat /\ read_int outside b row col = EMPTY.
Proof.
  induction n as [|n IH]; [discriminate|]. cbn [scan_open_int].
  destruct (Ascii.eqb_spec (read_int outside b n col) EMPTY) as [He|Hne].
  - intros [= <-]. split; [lia|done].
  - intros Hrow. destruct (IH Hrow). split; [lia|done].
Qed.

(** A drop that is written inside the array fills one empty cell of the
    board, whatever the column. *)
Lemma dropPiece_int_cases outside b col player placed b' :
  dropPiece_int outside b col player = Some (placed, b') ->
  (placed = false /\ b' = b)
  \/ (placed = true
      /\ exists r c, (r < ROWS)%nat /\ (c < COLS)%nat
           /\ cell b r c = EMPTY /\ b' = set_cell b r c player).
Proof.
  unfold dropPiece_int, getNextOpenRow_int.
  destruct (scan_open_int outside b col ROWS) as [row|] eqn:Hrow;
    [|intros [= <- <-]; by left].
  apply scan_open_int_spec in Hrow as [_ He]. cbv zeta.
  unfold read_int in He. cbv zeta in He.
  destruct (in_array (offset row col)) eqn:Hin; [|discriminate].
  intros [= <- <-]. right. split; [done|].
  apply andb_true_iff in Hin as [Hlo%Z.leb_le Hhi%Z.ltb_lt].
  set (o := Z.to_nat (offset row col)) in *.
  assert (o < ROWS * COLS)%nat as Ho by lia.
  exists (o / COLS)%nat, (o mod COLS)%nat.
  assert (idx (o / COLS) (o mod COLS) = o) as Hidx
    by (unfold idx; pose proof (Nat.div_mod_eq o COLS); lia).
  split; [apply Nat.Div0.div_lt_upper_bound; lia|].
  split; [apply Nat.mod_upper_bound; unfold COLS; lia|].
  unfold cell, set_cell. by rewrite Hidx.
Qed.

(** X22.  [dropPiece] called with any [int] column: for a column of the
    board it does what [dropPiece] does on that column; for any other
    column, as long as the piece is written inside the array, it either
    fails and leaves the board as it is, or writes the piece into one cell
    of the board that was empty and changes nothing else. *)
Theorem dropPiece_int_effect (outside : Z -> ascii) (b : board)
  (player : ascii) :
  (forall col, (col < COLS)%nat ->
     dropPiece_int outside b (Z.of_nat col) player
     = Some (dropPiece b col player))
  /\ (forall col placed b',
        dropPiece_int outside b col player = Some (placed, b') ->
        (placed = false /\ b' = b)
        \/ (placed = true
            /\ exists r c, (r < ROWS)%nat /\ (c < COLS)%nat
                 /\ cell b r c = EMPTY /\ b' = set_cell b r c player)).
Proof.
  split.
  - intros col Hcol. by apply dropPiece_int_on_board.
  - intros col placed b'. apply dropPiece_int_cases.
Qed.

(** C9 fails on the program: [main] passes the number typed, less one, to
    [dropPiece] without a test.  When 0 is typed at the first prompt,
    [dropPiece(-1, 'X')] reads [board[5][-1]], which is the empty cell
    [board[4][6]], and writes the piece there: it lies over the empty cell
    [board[5][6]], and the loop of [main] goes on with that board. *)
Theorem dropPiece_off_board_floats `{StdSort} (outside : Z -> ascii)
  (gameMode : Z) (isAI : bool) (aiDepth : Z) :
  getNextOpenRow_int outside initBoard (-1) = Some 5%nat
  /\ dropPiece_int outside initBoard (-1) PX
     = Some (true, set_cell initBoard 4 6 PX)
  /\ cell (set_cell initBoard 4 6 PX) 4 6 = PX
  /\ cell (set_cell initBoard 4 6 PX) 5 6 = EMPTY
  /\ ~ gravity (set_cell initBoard 4 6 PX)
  /\ ~ nothing_floats (set_cell initBoard 4 6 PX)
  /\ turn gameMode isAI aiDepth 0 outside new_game = Some zero_typed.
Proof.
  split; [reflexivity|]. split; [reflexivity|].
  split; [reflexivity|]. split; [reflexivity|].
  split; [|split].
  - intros Hg. apply (Hg 4%nat 6%nat); [unfold ROWS; lia|unfold COLS; lia| |];
      [discriminate|reflexivity].
  - intros Hf. specialize (Hf 5%nat 4%nat 6%nat).
    assert (cell (set_cell initBoard 4 6 PX) 4 6 = EMPTY) as Habs
      by (apply Hf; [lia|unfold ROWS; lia|unfold COLS; lia|reflexivity]).
    discriminate.
  - unfold turn, new_game.
    cbn [gm_board gm_memo gm_moves gm_current gm_gameOver gm_s1 gm_s2].
    change (PX ==c PO) with false. rewrite andb_false_r. cbv iota.
    change (dropPiece_int outside initBoard (0 - 1) PX)
      with (Some (true, set_cell initBoard 4 6 PX)).
    replace (calculateFinalScore initBoard PX) with 0 by (by vm_compute).
    replace (calculateFinalScore initBoard PO) with 0 by (by vm_compute).
    replace (checkWin (set_cell initBoard 4 6 PX) PX) with false
      by (by vm_compute).
    by destruct (gameMode =? 2), (gameMode =? 1).
Qed.

(** ** The game loop *)

Lemma count_after_set (P : ascii -> bool) b row col v :
  (row < ROWS)%nat -> (col < COLS)%nat -> cell b row col = EMPTY ->
  Z.of_nat (length (List.filter
    (fun q : nat * nat => P (cell (set_cell b row col v) q.1 q.2)) all_cells))
  = Z.of_nat (length (List.filter
      (fun q : nat * nat => P (cell b q.1 q.2)) all_cells))
    - Z.b2z (P EMPTY) + Z.b2z (P v).
Proof.
  intros Hrow Hcol He.
  assert (In (row, col) all_cells) as Hin
    by (apply in_prod_iff; split; apply in_seq; unfold ROWS, COLS in *; lia).
  assert (List.NoDup all_cells) as Hnd
    by (apply NoDup_ListNoDup, (bool_decide_unpack _); by vm_compute).
  assert (forall p, In p all_cells -> (p.2 < COLS)%nat) as Hcols
    by (intros [r c] [_ Hc%in_seq]%in_prod_iff; simpl; lia).
  assert (forall l, (forall p, In p l -> (p.2 < COLS)%nat) ->
            ~ In (row, col) l ->
            List.filter (fun q : nat * nat =>
                           P (cell (set_cell b row col v) q.1 q.2)) l
            = List.filter (fun q : nat * nat => P (cell b q.1 q.2)) l) as Hsame.
  { intros l Hl Hnotin. apply filter_ext_in. intros [r c] Hq. cbn [fst snd].
    rewrite cell_set_other; [done|].
    intros Hidx. apply idx_inj in Hidx as [-> ->]; [done|done|].
    apply (Hl (r, c) Hq). }
  induction all_cells as [|[r c] l IH]; [destruct Hin|].
  inversion Hnd as [|? ? Hnotin Hnd']; subst. cbn [List.filter fst snd].
  destruct Hin as [[= -> ->]|Hin].
  - rewrite Hsame; [|intros p Hp; apply Hcols; by right|done].
    rewrite (cell_set_same _ _ _ _ He), He.
    destruct (P EMPTY), (P v); cbn [length Z.b2z]; lia.
  - assert (idx row col <> idx r c) as Hne.
    { intros Hidx. apply idx_inj in Hidx as [-> ->]; [done|done|].
      apply (Hcols (r, c)). by left. }
    rewrite (cell_set_other _ _ _ _ _ _ Hne).
    specialize (IH Hin Hnd' (fun p Hp => Hcols p (or_intror Hp))).
    destruct (P (cell b r c)); cbn [length]; lia.
Qed.

Lemma all_cells_length : length all_cells = (ROWS * COLS)%nat.
Proof. reflexivity. Qed.

Lemma occupied_cells_bound b : 0 <= occupied_cells b <= Z.of_nat (ROWS * COLS).
Proof.
  unfold occupied_cells. rewrite <- all_cells_length.
  pose proof (filter_length_le
    (fun p : nat * nat => negb (cell b p.1 p.2 ==c EMPTY)) all_cells). lia.
Qed.

Lemma occupied_not_full b :
  occupied_cells b < Z.of_nat (ROWS * COLS) -> is_full b = false.
Proof.
  intros Hlt. destruct (is_full b) eqn:Hfull; [|done].
  unfold is_full in Hfull. apply forallb_filter_id in Hfull.
  unfold occupied_cells in Hlt. rewrite Hfull, all_cells_length in Hlt. lia.
Qed.

Lemma place_counts b row col v :
  (row < ROWS)%nat -> (col < COLS)%nat -> cell b row col = EMPTY ->
  (v = PX \/ v = PO) ->
  occupied_cells (set_cell b row col v) = occupied_cells b + 1
  /\ pieces (set_cell b row col v) PX = pieces b PX + Z.b2z (v ==c PX)
  /\ pieces (set_cell b row col v) PO = pieces b PO + Z.b2z (v ==c PO).
Proof.
  intros Hrow Hcol He Hv.
  pose proof (count_after_set (fun ch => negb (ch ==c EMPTY)) b row col v
                Hrow Hcol He) as Hocc.
  pose proof (count_after_set (fun ch => ch ==c PX) b row col v Hrow Hcol He)
    as HX.
  pose proof (count_after_set (fun ch => ch ==c PO) b row col v Hrow Hcol He)
    as HO.
  cbv beta in Hocc, HX, HO.
  fold (occupied_cells (set_cell b row col v)) in Hocc.
  fold (occupied_cells b) in Hocc.
  fold (pieces (set_cell b row col v) PX) in HX. fold (pieces b PX) in HX.
  fold (pieces (set_cell b row col v) PO) in HO. fold (pieces b PO) in HO.
  destruct Hv as [-> | ->]; simpl (Z.b2z _) in *; lia.
Qed.

Section Loop.

Context `{StdSort}.
Variables (gameMode : Z) (isAI : bool) (aiDepth : Z).

Lemma loop_invariant_start : loop_invariant gameMode new_game.
Proof.
  unfold loop_invariant, new_game. cbn [gm_board gm_memo gm_moves gm_current
    gm_gameOver gm_s1 gm_s2]. cbv zeta.
  split; [reflexivity|]. split; [apply cache_sound_empty|].
  split; [vm_compute; reflexivity|]. split; [vm_compute; reflexivity|].
  split; [left; reflexivity|]. split; [vm_compute; reflexivity|].
  split; [discriminate|]. intros _ _. split; vm_compute; reflexivity.
Qed.

(** What a pass through the loop body does to the variables. *)
Lemma turn_cases input outside g g' :
  loop_invariant gameMode g -> gm_gameOver g = false ->
  gm_moves g < Z.of_nat (ROWS * COLS) ->
  turn gameMode isAI aiDepth input outside g = Some g' ->
  exists memo' s1 s2,
    cache_sound memo'
    /\ (gameMode <> 2 -> s1 = gm_s1 g /\ s2 = gm_s2 g)
    /\ (g' = Game (gm_board g) memo' (gm_moves g) (gm_current g) false s1 s2
        \/ exists row col,
             (row < ROWS)%nat /\ (col < COLS)%nat
             /\ cell (gm_board g) row col = EMPTY
             /\ let b := set_cell (gm_board g) row col (gm_current g) in
                if (gameMode =? 1) && checkWin b (gm_current g)
                then g' = Game b memo' (gm_moves g + 1) (gm_current g) true
                            (if gm_current g ==c PX then 1 else s1)
                            (if gm_current g ==c PX then s2 else 1)
                else g' = Game b memo' (gm_moves g + 1)
                            (opponent (gm_current g)) false s1 s2).
Proof.
  intros (Hlen & Hsound & Hocc & _) Hgo Hmoves Hturn.
  destruct g as [b memo moves current gameOver s1 s2].
  cbn [gm_board gm_memo gm_moves gm_current gm_gameOver gm_s1 gm_s2] in *.
  subst gameOver. unfold turn in Hturn.
  cbn [gm_board gm_memo gm_moves gm_current gm_gameOver gm_s1 gm_s2] in Hturn.
  set (scores := if gameMode =? 2
                 then (calculateFinalScore b PX, calculateFinalScore b PO)
                 else (s1, s2)) in Hturn.
  assert (gameMode <> 2 -> scores.1 = s1 /\ scores.2 = s2) as Hscores.
  { intros Hmode. subst scores. by destruct (Z.eqb_spec gameMode 2). }
  destruct scores as [s1' s2']. cbn [fst snd] in Hscores.
  set (chosen := if isAI && (current ==c PO)
                 then chooseMove b memo aiDepth (gameMode =? 2)
                 else Some (input - 1, b, memo)) in Hturn.
  assert (chosen = None
          \/ exists targetCol memo',
               chosen = Some (targetCol, b, memo') /\ cache_sound memo') as Hch.
  { subst chosen. destruct (isAI && (current ==c PO)).
    - assert (is_full b = false) as Hfull by (apply occupied_not_full; lia).
      destruct (chooseMove_legal b memo aiDepth (gameMode =? 2) Hlen Hsound Hfull)
        as (col & memo' & Hrun & _ & Hsound').
      right. by exists col, memo'.
    - right. by exists (input - 1), memo. }
  destruct Hch as [Hch|(targetCol & memo' & Hch & Hsound')];
    rewrite Hch in Hturn; [discriminate|].
  exists memo', s1', s2'. split; [done|]. split; [done|].
  destruct (dropPiece_int outside b targetCol current) as [[placed b']|] eqn:Hdrop;
    [|discriminate].
  apply dropPiece_int_cases in Hdrop
    as [[-> ->]|(-> & row & col & Hrow & Hcol & He & ->)].
  - left. congruence.
  - right. exists row, col. split; [done|]. split; [done|]. split; [done|].
    cbv zeta. unfold opponent.
    destruct (gameMode =? 1); cbn [andb]; [|cbn in Hturn; congruence].
    destruct (checkWin (set_cell b row col current) current).
    + destruct (current ==c PX); cbn in Hturn; congruence.
    + cbn in Hturn. congruence.
Qed.

Lemma turn_invariant input outside g g' :
  loop_invariant gameMode g -> gm_gameOver g = false ->
  gm_moves g < Z.of_nat (ROWS * COLS) ->
  turn gameMode isAI aiDepth input outside g = Some g' ->
  loop_invariant gameMode g'.
Proof.
  intros Hinv Hgo Hmoves Hturn.
  destruct (turn_cases input outside g g' Hinv Hgo Hmoves Hturn)
    as (memo' & s1' & s2' & Hsound' & _ & Hcase).
  destruct Hinv as (Hlen & Hsound & Hocc & Hpcs & Hcur & Hbal & Hover & Hrun).
  destruct g as [b memo moves current gameOver s1 s2].
  cbn [gm_board gm_memo gm_moves gm_current gm_gameOver gm_s1 gm_s2] in *.
  subst gameOver.
  destruct Hcase as [->|(row & col & Hrow & Hcol & He & Hcase)].
  { unfold loop_invariant.
    cbn [gm_board gm_memo gm_moves gm_current gm_gameOver gm_s1 gm_s2].
    split; [done|]. split; [done|]. split; [done|]. split; [done|].
    split; [done|]. split; [done|]. split; [discriminate|]. done. }
  destruct (place_counts b row col current Hrow Hcol He Hcur)
    as (Hocc' & HX & HO).
  assert (length (set_cell b row col current) = (ROWS * COLS)%nat) as Hlen'
    by (unfold set_cell; by rewrite length_insert).
  assert (current <> opponent current) as Hopp
    by (destruct Hcur as [-> | ->]; discriminate).
  pose proof (proj1 (checkWin_set_cell b row col current (opponent current)
                       Hcol Hopp)) as Hother.
  cbv zeta in Hcase.
  remember (set_cell b row col current) as b' eqn:Hb' in *. clear Hb'.
  destruct (Z.eqb_spec gameMode 1) as [Hmode|Hmode]; cbn [andb] in Hcase.
  - specialize (Hrun Hmode eq_refl). destruct Hrun as [HwX HwO].
    assert (checkWin b' (opponent current) = false) as Hlost.
    { destruct (checkWin b' (opponent current)); [|done].
      specialize (Hother eq_refl).
      destruct Hcur as [-> | ->];
        [change (opponent PX) with PO in Hother
        |change (opponent PO) with PX in Hother]; congruence. }
    destruct (checkWin b' current) eqn:Hwin; subst g'; unfold loop_invariant;
      cbn [gm_board gm_memo gm_moves gm_current gm_gameOver gm_s1 gm_s2].
    + split; [done|]. split; [done|]. split; [lia|].
      split; [destruct Hcur as [-> | ->]; simpl (Z.b2z _) in *; lia|].
      split; [done|].
      split; [destruct Hcur as [-> | ->]; simpl (Z.b2z _) in *; lia|].
      split; [|discriminate]. intros _.
      split; [done|]. split; [done|]. split; [done|].
      by destruct Hcur as [-> | ->].
    + split; [done|]. split; [done|]. split; [lia|].
      split; [destruct Hcur as [-> | ->]; simpl (Z.b2z _) in *; lia|].
      split; [destruct Hcur as [-> | ->]; [by right|by left]|].
      split; [destruct Hcur as [-> | ->]; simpl (Z.b2z _) in *; lia|].
      split; [discriminate|]. intros _ _.
      destruct Hcur as [-> | ->];
        [change (opponent PX) with PO in Hlost
        |change (opponent PO) with PX in Hlost]; done.
  - subst g'. unfold loop_invariant.
    cbn [gm_board gm_memo gm_moves gm_current gm_gameOver gm_s1 gm_s2].
    split; [done|]. split; [done|]. split; [lia|].
    split; [destruct Hcur as [-> | ->]; simpl (Z.b2z _) in *; lia|].
    split; [destruct Hcur as [-> | ->]; [by right|by left]|].
    split; [destruct Hcur as [-> | ->]; simpl (Z.b2z _) in *; lia|].
    split; [discriminate|]. intros Hm. done.
Qed.

Lemma played_invariant g :
  played gameMode isAI aiDepth g -> loop_invariant gameMode g.
Proof.
  induction 1 as [|g input outside g' _ IH Hgo Hmoves Hturn].
  - apply loop_invariant_start.
  - by apply (turn_invariant input outside g g').
Qed.

(** The loop run on a list of typed numbers stays among the states of
    [played]. *)
Lemma play_played inputs :
  forall g g', played gameMode isAI aiDepth g ->
    play gameMode isAI aiDepth inputs g = Some g' ->
    played gameMode isAI aiDepth g'.
Proof.
  induction inputs as [|[input outside] rest IH]; intros g g' Hg; cbn [play].
  - by intros [= <-].
  - destruct (gm_gameOver g) eqn:Hgo; cbn [negb andb]; [by intros [= <-]|].
    destruct (Z.ltb_spec (gm_moves g) (Z.of_nat (ROWS * COLS))) as [Hlt|Hge];
      [|by intros [= <-]].
    destruct (turn gameMode isAI aiDepth input outside g) as [g1|] eqn:Hturn;
      [|discriminate].
    apply IH. by apply (played_turn _ _ _ g input outside g1).
Qed.

(** On its turn the computer always places a piece. *)
Lemma computer_turn input outside g :
  loop_invariant gameMode g -> gm_gameOver g = false ->
  gm_moves g < Z.of_nat (ROWS * COLS) ->
  isAI = true -> gm_current g = PO ->
  exists g' col row,
    turn gameMode isAI aiDepth input outside g = Some g'
    /\ (col < COLS)%nat /\ getNextOpenRow (gm_board g) col = Some row
    /\ gm_board g' = set_cell (gm_board g) row col PO
    /\ gm_moves g' = gm_moves g + 1.
Proof.
  intros (Hlen & Hsound & Hocc & _) Hgo Hmoves -> Hcur.
  destruct g as [b memo moves current gameOver s1 s2].
  cbn [gm_board gm_memo gm_moves gm_current gm_gameOver gm_s1 gm_s2] in *.
  subst gameOver current.
  assert (is_full b = false) as Hfull by (apply occupied_not_full; lia).
  destruct (chooseMove_legal b memo aiDepth (gameMode =? 2) Hlen Hsound Hfull)
    as (targetCol & memo' & Hrun & (Hlo & Hhi & Hopen) & _).
  destruct (getNextOpenRow b (Z.to_nat targetCol)) as [row|] eqn:Hrow; [|done].
  unfold turn.
  cbn [gm_board gm_memo gm_moves gm_current gm_gameOver gm_s1 gm_s2].
  change (true && (PO ==c PO)) with true. cbv iota. rewrite Hrun.
  destruct (if gameMode =? 2
            then (calculateFinalScore b PX, calculateFinalScore b PO)
            else (s1, s2)) as [s1' s2'].
  assert (dropPiece_int outside b targetCol PO
          = Some (dropPiece b (Z.to_nat targetCol) PO)) as Hdrop
    by (rewrite <- (dropPiece_int_on_board outside b (Z.to_nat targetCol) PO Hhi);
        by rewrite Z2Nat.id).
  rewrite Hdrop. unfold dropPiece. rewrite Hrow.
  destruct (gameMode =? 1); [destruct (checkWin _ PO)|];
    eexists _, (Z.to_nat targetCol), row; (split; [reflexivity|]); done.
Qed.

End Loop.

Lemma zero_typed_played : played (H := stable_sort) 1 true 4 zero_typed.
Proof.
  assert (play (H := stable_sort) 1 true 4 [(0, zero_bytes)] new_game
          = Some zero_typed) as Hplay by (vm_compute; reflexivity).
  exact (play_played 1 true 4 [(0, zero_bytes)] new_game zero_typed
           (played_start 1 true 4) Hplay).
Qed.

Lemma first_column_won_played :
  played (H := stable_sort) 1 false 2 first_column_won.
Proof.
  assert (play (H := stable_sort) 1 false 2
            [(1, zero_bytes); (2, zero_bytes); (1, zero_bytes); (2, zero_bytes);
             (1, zero_bytes); (2, zero_bytes); (1, zero_bytes)] new_game
          = Some first_column_won) as Hplay by (vm_compute; reflexivity).
  exact (play_played 1 false 2 _ new_game first_column_won
           (played_start 1 false 2) Hplay).
Qed.

(** X18.  Each time the loop of [main] tests its condition, whatever numbers
    were typed, on the board or off it, in a run in which [dropPiece] has
    not written outside the array: [moves] is the number of occupied cells
    and the number of pieces of 'X' and 'O' together, it is at most
    [ROWS * COLS], the player to move is 'X' or 'O', and while the game runs
    'X' has as many pieces as 'O' when 'X' is to move and one more when 'O'
    is to move. *)
Theorem game_moves_and_pieces `{StdSort} (gameMode : Z) (isAI : bool)
  (aiDepth : Z) (g : game) :
  played gameMode isAI aiDepth g ->
  gm_moves g = occupied_cells (gm_board g)
  /\ gm_moves g = pieces (gm_board g) PX + pieces (gm_board g) PO
  /\ 0 <= gm_moves g <= Z.of_nat (ROWS * COLS)
  /\ (gm_current g = PX \/ gm_current g = PO)
  /\ (gm_gameOver g = false ->
      pieces (gm_board g) PX
      = pieces (gm_board g) PO + (if gm_current g ==c PO then 1 else 0))
  /\ pieces (gm_board g) PO <= pieces (gm_board g) PX
     <= pieces (gm_board g) PO + 1.
Proof.
  intros (_ & _ & Hocc & Hpcs & Hcur & Hbal & _)%played_invariant.
  pose proof (occupied_cells_bound (gm_board g)).
  destruct g as [b memo moves current gameOver s1 s2].
  cbn [gm_board gm_memo gm_moves gm_current gm_gameOver gm_s1 gm_s2] in *.
  split; [done|]. split; [done|]. split; [lia|]. split; [done|].
  destruct gameOver, Hcur as [-> | ->]; simpl (Z.b2z _) in Hbal;
    (split; [|lia]); intros Hgo; try discriminate;
    try change (PX ==c PO) with false; try change (PO ==c PO) with true;
    cbv iota; lia.
Qed.

Lemma game_moves_and_pieces_witness :
  gm_moves zero_typed = occupied_cells (gm_board zero_typed)
  /\ gm_moves zero_typed
     = pieces (gm_board zero_typed) PX + pieces (gm_board zero_typed) PO
  /\ 0 <= gm_moves zero_typed <= Z.of_nat (ROWS * COLS)
  /\ (gm_current zero_typed = PX \/ gm_current zero_typed = PO)
  /\ (gm_gameOver zero_typed = false ->
      pieces (gm_board zero_typed) PX
      = pieces (gm_board zero_typed) PO
        + (if gm_current zero_typed ==c PO then 1 else 0))
  /\ pieces (gm_board zero_typed) PO <= pieces (gm_board zero_typed) PX
     <= pieces (gm_board zero_typed) PO + 1.
Proof.
  exact (game_moves_and_pieces (H := stable_sort) 1 true 4 zero_typed
           zero_typed_played).
Defined.

(** X19.  Whatever numbers were typed, in a run in which [dropPiece] has not
    written outside the array: [gameOver] is set only in classic mode, and
    then the player in [current] has a line, the other player has none and
    the winner's score is 1; while a classic game runs, neither player has a
    line. *)
Theorem game_over_means_line `{StdSort} (gameMode : Z) (isAI : bool)
  (aiDepth : Z) (g : game) :
  played gameMode isAI aiDepth g ->
  (gm_gameOver g = true ->
     gameMode = 1
     /\ checkWin (gm_board g) (gm_current g) = true
     /\ checkWin (gm_board g) (opponent (gm_current g)) = false
     /\ (if gm_current g ==c PX then gm_s1 g else gm_s2 g) = 1)
  /\ (gameMode = 1 -> gm_gameOver g = false ->
      checkWin (gm_board g) PX = false /\ checkWin (gm_board g) PO = false).
Proof.
  by intros (_ & _ & _ & _ & _ & _ & Hover & Hrun)%played_invariant.
Qed.

Lemma game_over_means_line_witness :
  gm_gameOver first_column_won = true
  /\ checkWin (gm_board first_column_won) PX = true
  /\ checkWin (gm_board first_column_won) PO = false
  /\ gm_s1 first_column_won = 1.
Proof.
  split; [reflexivity|].
  destruct (proj1 (game_over_means_line (H := stable_sort) 1 false 2
                     first_column_won first_column_won_played) eq_refl)
    as (_ & HX & HO & Hs1).
  split; [exact HX|]. split; [exact HO|exact Hs1].
Defined.

(** X20.  Against the computer, whatever numbers the person has typed, in a
    run in which [dropPiece] has not written outside the array: a pass
    through the loop of [main] with 'O' to move places one piece of 'O' in
    the lowest empty cell of a column of the board and counts one more move.
    The computer never passes a column that is off the board or full to
    [dropPiece]. *)
Theorem computer_always_moves `{StdSort} (gameMode : Z) (aiDepth : Z)
  (input : Z) (outside : Z -> ascii) (g : game) :
  played gameMode true aiDepth g -> gm_gameOver g = false ->
  gm_moves g < Z.of_nat (ROWS * COLS) -> gm_current g = PO ->
  exists g' col row,
    turn gameMode true aiDepth input outside g = Some g'
    /\ (col < COLS)%nat /\ getNextOpenRow (gm_board g) col = Some row
    /\ gm_board g' = set_cell (gm_board g) row col PO
    /\ gm_moves g' = gm_moves g + 1.
Proof.
  intros Hinv%played_invariant Hgo Hmoves Hcur.
  by apply computer_turn.
Qed.

Lemma computer_always_moves_witness :
  exists g' col row,
    turn (H := stable_sort) 1 true 4 0 zero_bytes zero_typed = Some g'
    /\ (col < COLS)%nat
    /\ getNextOpenRow (gm_board zero_typed) col = Some row
    /\ gm_board g' = set_cell (gm_board zero_typed) row col PO
    /\ gm_moves g' = gm_moves zero_typed + 1.
Proof.
  exact (computer_always_moves (H := stable_sort) 1 4 0 zero_bytes zero_typed
           zero_typed_played eq_refl eq_refl eq_refl).
Defined.
